(** * Memory game (src/main.js): board generation, flips, resolution, timers

    A shallow embedding of the [MemoryGame] class of [src/main.js] together
    with the part of the browser it talks to: the card elements and their
    class lists, the timer table behind [setTimeout] / [setInterval], the
    frame queue behind [requestAnimationFrame], the audio cues and the
    storage of finished games.

    Every method of the class is a function on the record [World]; a method
    that can throw returns a [Completion].  The page is taken to hold all
    the elements the constructor asks for.  Left out, as pure styling: the
    themes ([changeTheme]), the grid template and the [data-level]
    attribute. *)

From Stdlib Require Import String List Arith Lia Bool.
From stdpp Require Import base list strings.

Open Scope string_scope.

(** ** Constants *)

Definition ANIMATION_DURATION : nat := 600.
Definition CHECK_MATCH_DELAY : nat := 1600.

Inductive GameState := IDLE | PLAYING | CHECKING | FINISHED.

Module LEVELS.
Definition EASY := "2x2".
Definition MEDIUM := "4x3".
Definition HARD := "4x4".
Definition EXPERT := "4x5".
Definition MASTER := "4x6".
End LEVELS.

(** The pool the constructor installs in [this.symbols]. *)
Definition defaultSymbols : list string :=
  ["1"; "2"; "3"; "4"; "5"; "6"; "7"; "8"; "9"; "10"; "11"; "12";
   "A"; "B"; "C"; "L"; "W"; "X"; "Y"; "Z"; "M"; "N"; "O"; "P"; "Q";
   "R"; "S"; "T"; "U"; "V"].

(** ** [getDimensions]

    [dimensions[level] || [4, 4]] reads a property of an object literal.
    Such a read first looks at the five own keys and then walks to
    [Object.prototype]; the names found there yield a function (or, for
    [__proto__], the prototype object), all of them truthy, so [||] keeps
    them. *)

Inductive Dimensions :=
| Dim (rows cols : nat)
| Inherited (name : string).

Definition objectPrototypeKeys : list string :=
  ["constructor"; "hasOwnProperty"; "isPrototypeOf"; "propertyIsEnumerable";
   "toLocaleString"; "toString"; "valueOf"; "__proto__";
   "__defineGetter__"; "__defineSetter__"; "__lookupGetter__"; "__lookupSetter__"].

Definition dimensions : list (string * (nat * nat)) :=
  [("2x2", (2, 2)); ("4x3", (4, 3)); ("4x4", (4, 4)); ("4x5", (4, 5)); ("4x6", (4, 6))].

Fixpoint ownProperty {A} (o : list (string * A)) (key : string) : option A :=
  match o with
  | [] => None
  | (k, v) :: o' => if String.eqb k key then Some v else ownProperty o' key
  end.

Definition getDimensions (level : string) : Dimensions :=
  match ownProperty dimensions level with
  | Some (rows, cols) => Dim rows cols
  | None =>
      if existsb (String.eqb level) objectPrototypeKeys
      then Inherited level
      else Dim 4 4
  end.

(** ** [Array.prototype.sort] under the comparator [() => Math.random() - 0.5]

    The comparator ignores its arguments, so all the sort sees of it is the
    sequence of its answers: [true] when [Math.random() - 0.5] is negative.
    The sort itself belongs to the engine.  It is an interface here: any
    procedure that reorders its input.  [insertionSort] below is one such
    engine, used wherever a board has to be computed. *)

Class ArraySort := {
  sortBy : forall {A : Type}, list bool -> list A -> list A
}.

Class ArraySortReorders (engine : ArraySort) := {
  sortBy_Permutation : forall (A : Type) (answers : list bool) (l : list A),
      Permutation (sortBy answers l) l
}.

Definition nextAnswer (answers : list bool) : bool * list bool :=
  match answers with
  | [] => (false, [])
  | b :: rest => (b, rest)
  end.

Fixpoint insertBy {A} (x : A) (sorted : list A) (answers : list bool) : list A * list bool :=
  match sorted with
  | [] => ([x], answers)
  | y :: sorted' =>
      let (negative, answers') := nextAnswer answers in
      if negative then (x :: y :: sorted', answers')
      else let (l, answers'') := insertBy x sorted' answers' in (y :: l, answers'')
  end.

Fixpoint insertionRun {A} (l : list A) (answers : list bool) : list A * list bool :=
  match l with
  | [] => ([], answers)
  | x :: l' =>
      let (sorted, answers') := insertionRun l' answers in
      insertBy x sorted answers'
  end.

Definition insertionSortBy {A} (answers : list bool) (l : list A) : list A :=
  fst (insertionRun l answers).

#[export] Instance insertionSort : ArraySort := {| sortBy := @insertionSortBy |}.

(** ** [shuffleCards] *)

Record Card := { symbol : string; id : nat }.

Definition shuffleCards `{ArraySort} (symbols : list string) (totalCards : nat)
    (answers : list bool) : list Card :=
  let halfDeck := take (totalCards / 2) symbols in
  imap (fun id symbol => {| symbol := symbol; id := id |})
       (sortBy answers (halfDeck ++ halfDeck)).

(** ** The page: card elements, timers, frames

    A card element is kept by reference: [cards] holds every element ever
    created and a reference is an index into it.  [gameBoard] lists the
    references of the children of [.game-board]; an element dropped by
    [innerHTML = ''] stays in [cards], where the closures that captured it
    still reach it. *)

Record CardElement := {
  front : string;          (* text of .card-front *)
  flipped : bool;          (* classList.contains('flipped') *)
  matched : bool;          (* classList.contains('matched') *)
  shake : bool             (* classList.contains('shake-horizontal') *)
}.

Definition addFlipped (e : CardElement) : CardElement :=
  {| front := front e; flipped := true; matched := matched e; shake := shake e |}.
Definition addMatched (e : CardElement) : CardElement :=
  {| front := front e; flipped := flipped e; matched := true; shake := shake e |}.
Definition addShake (e : CardElement) : CardElement :=
  {| front := front e; flipped := flipped e; matched := matched e; shake := true |}.
Definition removeFlippedShake (e : CardElement) : CardElement :=
  {| front := front e; flipped := false; matched := matched e; shake := false |}.

(** An entry of [this.selectedCards]: [{ element: cardElement, symbol }]. *)
Module Selected.
Record t := { element : nat; symbol : string }.
End Selected.

Inductive Sound := SoundMatch | SoundWin | SoundFail.

Module Stats.
Record t := { level : string; turns : nat; time : nat; date : nat }.
End Stats.

(** The closures handed to [setTimeout], [setInterval] and
    [requestAnimationFrame], named after what they run. *)
Inductive Callback :=
| CallCheckMatch                    (* () => this.checkMatch() *)
| CallUnlock                        (* () => { this.allowClick = true; this.checkGameOver() } *)
| CallMatched (card1 card2 : nat)   (* handleMatch: adds 'matched', gameState = PLAYING *)
| CallUnflip (card1 card2 : nat)    (* handleMismatch: removes 'flipped', 'shake-horizontal' *)
| CallTick.                         (* startTimer: this.seconds++ *)

Inductive FrameCallback :=
| FrameMatched (card1 card2 : nat). (* handleMatch: () => setTimeout(..., ANIMATION_DURATION) *)

Record Timer := {
  handle : nat;
  due : nat;                 (* milliseconds *)
  callback : Callback;
  every : option nat         (* the period of an interval *)
}.

Record World := mkWorld {
  (* fields of the MemoryGame instance *)
  selectedCards : list Selected.t;
  allowClick : bool;
  timer : option nat;
  seconds : nat;
  turns : nat;
  gameState : GameState;
  (* the document *)
  cards : list CardElement;
  gameBoard : list nat;
  levelSelect : string;
  turnsDisplay : nat;
  timerDisplay : nat * nat;
  message : bool;
  (* audio cues played, newest first; localStorage['memoryGameStats'] *)
  played : list Sound;
  memoryGameStats : list Stats.t;
  (* the browser's clock, timer table and frame queue *)
  now : nat;
  nextHandle : nat;
  timers : list Timer;
  frames : list FrameCallback
}.

Definition set_selectedCards v '(mkWorld _ b c d e f g h i j k l m n o p q r) :=
  mkWorld v b c d e f g h i j k l m n o p q r.
Definition set_allowClick v '(mkWorld a _ c d e f g h i j k l m n o p q r) :=
  mkWorld a v c d e f g h i j k l m n o p q r.
Definition set_timer v '(mkWorld a b _ d e f g h i j k l m n o p q r) :=
  mkWorld a b v d e f g h i j k l m n o p q r.
Definition set_seconds v '(mkWorld a b c _ e f g h i j k l m n o p q r) :=
  mkWorld a b c v e f g h i j k l m n o p q r.
Definition set_turns v '(mkWorld a b c d _ f g h i j k l m n o p q r) :=
  mkWorld a b c d v f g h i j k l m n o p q r.
Definition set_gameState v '(mkWorld a b c d e _ g h i j k l m n o p q r) :=
  mkWorld a b c d e v g h i j k l m n o p q r.
Definition set_cards v '(mkWorld a b c d e f _ h i j k l m n o p q r) :=
  mkWorld a b c d e f v h i j k l m n o p q r.
Definition set_gameBoard v '(mkWorld a b c d e f g _ i j k l m n o p q r) :=
  mkWorld a b c d e f g v i j k l m n o p q r.
Definition set_levelSelect v '(mkWorld a b c d e f g h _ j k l m n o p q r) :=
  mkWorld a b c d e f g h v j k l m n o p q r.
Definition set_turnsDisplay v '(mkWorld a b c d e f g h i _ k l m n o p q r) :=
  mkWorld a b c d e f g h i v k l m n o p q r.
Definition set_timerDisplay v '(mkWorld a b c d e f g h i j _ l m n o p q r) :=
  mkWorld a b c d e f g h i j v l m n o p q r.
Definition set_message v '(mkWorld a b c d e f g h i j k _ m n o p q r) :=
  mkWorld a b c d e f g h i j k v m n o p q r.
Definition set_played v '(mkWorld a b c d e f g h i j k l _ n o p q r) :=
  mkWorld a b c d e f g h i j k l v n o p q r.
Definition set_memoryGameStats v '(mkWorld a b c d e f g h i j k l m _ o p q r) :=
  mkWorld a b c d e f g h i j k l m v o p q r.
Definition set_now v '(mkWorld a b c d e f g h i j k l m n _ p q r) :=
  mkWorld a b c d e f g h i j k l m n v p q r.
Definition set_nextHandle v '(mkWorld a b c d e f g h i j k l m n o _ q r) :=
  mkWorld a b c d e f g h i j k l m n o v q r.
Definition set_timers v '(mkWorld a b c d e f g h i j k l m n o p _ r) :=
  mkWorld a b c d e f g h i j k l m n o p v r.
Definition set_frames v '(mkWorld a b c d e f g h i j k l m n o p q _) :=
  mkWorld a b c d e f g h i j k l m n o p q v.

(** A method either returns or throws a [TypeError]; both carry the world
    as the method left it. *)
Inductive Completion :=
| Normal (w : World)
| TypeError (w : World).

Definition settle (c : Completion) : World :=
  match c with Normal w | TypeError w => w end.

(** *** Browser services *)

Definition setTimeout (cb : Callback) (delay : nat) (w : World) : World :=
  set_nextHandle (S (nextHandle w))
    (set_timers (timers w ++ [{| handle := nextHandle w; due := now w + delay;
                                 callback := cb; every := None |}]) w).

Definition setInterval (cb : Callback) (period : nat) (w : World) : World :=
  set_timer (Some (nextHandle w))
    (set_nextHandle (S (nextHandle w))
      (set_timers (timers w ++ [{| handle := nextHandle w; due := now w + period;
                                   callback := cb; every := Some period |}]) w)).

Definition clearInterval (h : option nat) (w : World) : World :=
  match h with
  | None => w
  | Some h => set_timers (List.filter (fun t => negb (Nat.eqb (handle t) h)) (timers w)) w
  end.

Definition requestAnimationFrame (cb : FrameCallback) (w : World) : World :=
  set_frames (frames w ++ [cb]) w.

Definition play (s : Sound) (w : World) : World := set_played (s :: played w) w.

Definition classList (f : CardElement -> CardElement) (card : nat) (w : World) : World :=
  set_cards (alter f card (cards w)) w.

(** ** Methods of [MemoryGame] *)

Definition updateTurns (w : World) : World :=
  let w := set_turns (S (turns w)) w in
  set_turnsDisplay (turns w) w.

(** The listener always belongs to an element that exists; a reference
    outside [cards] stands for no element and nothing happens. *)
Definition handleCardClick (cardElement : nat) (symbol : string) (w : World) : World :=
  match cards w !! cardElement with
  | None => w
  | Some e =>
      if negb (allowClick w) || flipped e || matched e then w
      else
        let w := classList addFlipped cardElement w in
        let w := set_selectedCards
                   (selectedCards w ++ [{| Selected.element := cardElement;
                                           Selected.symbol := symbol |}]) w in
        if Nat.eqb (length (selectedCards w)) 2 then
          let w := set_allowClick false w in
          let w := updateTurns w in
          setTimeout CallCheckMatch ANIMATION_DURATION w
        else w
  end.

Definition handleMatch (card1 card2 : Selected.t) (w : World) : World :=
  let w := set_gameState CHECKING w in
  let w := play SoundMatch w in
  requestAnimationFrame (FrameMatched (Selected.element card1) (Selected.element card2)) w.

Definition handleMismatch (card1 card2 : Selected.t) (w : World) : World :=
  let w := classList addShake (Selected.element card1) w in
  let w := classList addShake (Selected.element card2) w in
  let w := play SoundFail w in
  setTimeout (CallUnflip (Selected.element card1) (Selected.element card2))
             (ANIMATION_DURATION * 2) w.

(** [const [card1, card2] = this.selectedCards] leaves a missing entry
    [undefined]; reading [.symbol] of it throws before anything is written. *)
Definition checkMatch (w : World) : Completion :=
  match selectedCards w with
  | card1 :: card2 :: _ =>
      let isMatch := String.eqb (Selected.symbol card1) (Selected.symbol card2) in
      let w := if isMatch then handleMatch card1 card2 w
               else handleMismatch card1 card2 w in
      let w := set_selectedCards [] w in
      Normal (setTimeout CallUnlock CHECK_MATCH_DELAY w)
  | _ => TypeError w
  end.

Definition updateTimerDisplay (w : World) : World :=
  set_timerDisplay (seconds w / 60, seconds w mod 60) w.

Definition startTimer (w : World) : World :=
  let w := clearInterval (timer w) w in
  let w := set_seconds 0 w in
  let w := updateTimerDisplay w in
  setInterval CallTick 1000 w.

(** [document.querySelectorAll('.card:not(.matched)')]: the cards of the
    document are the children of the game board. *)
Definition remainingCards (w : World) : list nat :=
  List.filter (fun c => match cards w !! c with
                   | Some e => negb (matched e)
                   | None => false
                   end) (gameBoard w).

Definition saveGameStats (w : World) : World :=
  let stats := {| Stats.level := levelSelect w; Stats.turns := turns w;
                  Stats.time := seconds w; Stats.date := now w |} in
  set_memoryGameStats (memoryGameStats w ++ [stats]) w.

Definition finishGame (w : World) : World :=
  let w := clearInterval (timer w) w in
  let w := play SoundWin w in
  let w := saveGameStats w in
  set_message true w.

(** The class body defines [checkGameOver] twice.  The first definition
    (lines 292-300) is replaced by the second (lines 333-340) when the class
    is evaluated, so every call runs the second. *)
Definition checkGameOver_first (w : World) : World * bool :=
  if Nat.eqb (length (remainingCards w)) 0 then
    let w := set_gameState FINISHED w in
    (finishGame w, true)
  else (w, false).

Definition checkGameOver (w : World) : World :=
  if Nat.eqb (length (remainingCards w)) 0 then
    let w := clearInterval (timer w) w in
    let w := play SoundWin w in
    set_message true w
  else w.

Definition createCard (card : Card) (w : World) : World :=
  let ref := length (cards w) in
  let w := set_cards (cards w ++ [{| front := symbol card; flipped := false;
                                     matched := false; shake := false |}]) w in
  set_gameBoard (gameBoard w ++ [ref]) w.

Section Engine.
Context `{engine : ArraySort}.

(** Destructuring [const [rows, cols] = ...] throws when the value is not
    iterable, that is when [getDimensions] returned an inherited member. *)
Definition createGameBoard (answers : list bool) (w : World) : Completion :=
  let w := set_gameBoard [] w in
  match getDimensions (levelSelect w) with
  | Inherited _ => TypeError w
  | Dim rows cols =>
      let totalCards := rows * cols in
      let gameCards := shuffleCards defaultSymbols totalCards answers in
      Normal (fold_left (fun w card => createCard card w) gameCards w)
  end.

Definition startGame (answers : list bool) (w : World) : Completion :=
  let w := set_message false w in
  let w := set_selectedCards [] w in
  let w := set_allowClick true w in
  let w := set_turns 0 w in
  let w := set_turnsDisplay (turns w) w in
  match createGameBoard answers w with
  | Normal w => Normal (startTimer w)
  | TypeError w => TypeError w
  end.

(** [new MemoryGame()] on a page whose level select shows [level]. *)
Definition constructor (level : string) : World :=
  {| selectedCards := []; allowClick := true; timer := None; seconds := 0;
     turns := 0; gameState := IDLE;
     cards := []; gameBoard := []; levelSelect := level;
     turnsDisplay := 0; timerDisplay := (0, 0); message := false;
     played := []; memoryGameStats := [];
     now := 0; nextHandle := 0; timers := []; frames := [] |}.

(** The [DOMContentLoaded] listener. *)
Definition DOMContentLoaded (level : string) (answers : list bool) : World :=
  settle (startGame answers (constructor level)).

(** ** The event loop *)

Definition runCallback (cb : Callback) (w : World) : World :=
  match cb with
  | CallCheckMatch => settle (checkMatch w)
  | CallUnlock => checkGameOver (set_allowClick true w)
  | CallMatched card1 card2 =>
      let w := classList addMatched card1 w in
      let w := classList addMatched card2 w in
      set_gameState PLAYING w
  | CallUnflip card1 card2 =>
      let w := classList removeFlippedShake card1 w in
      classList removeFlippedShake card2 w
  | CallTick => updateTimerDisplay (set_seconds (S (seconds w)) w)
  end.

Definition runFrame (cb : FrameCallback) (w : World) : World :=
  match cb with
  | FrameMatched card1 card2 =>
      setTimeout (CallMatched card1 card2) ANIMATION_DURATION w
  end.

(** The timer that runs next: the least due time, the older timer first
    among equals. *)
Fixpoint earliest (ts : list Timer) : option Timer :=
  match ts with
  | [] => None
  | t :: ts' =>
      match earliest ts' with
      | None => Some t
      | Some t' => if Nat.leb (due t) (due t') then Some t else Some t'
      end
  end.

Definition fire (w : World) : World :=
  match earliest (timers w) with
  | None => w
  | Some t =>
      let w := set_now (Nat.max (now w) (due t)) w in
      let others := List.filter (fun t' => negb (Nat.eqb (handle t') (handle t))) (timers w) in
      let w := set_timers
                 (match every t with
                  | Some period =>
                      others ++ [{| handle := handle t; due := due t + period;
                                    callback := callback t; every := every t |}]
                  | None => others
                  end) w in
      runCallback (callback t) w
  end.

Definition paint (w : World) : World :=
  fold_left (fun w cb => runFrame cb w) (frames w) (set_frames [] w).

(** Time passes, but not beyond the moment the next timer is due. *)
Definition wait (dt : nat) (w : World) : World :=
  match earliest (timers w) with
  | None => set_now (now w + dt) w
  | Some t => set_now (Nat.min (now w + dt) (Nat.max (now w) (due t))) w
  end.

Inductive Event :=
| Click (i : nat)                                (* click on the i-th card of the board *)
| ChangeLevel (level : string) (answers : list bool)  (* 'change' on the level select *)
| PlayAgain (answers : list bool)                (* click on the button of the message *)
| Wait (dt : nat)
| Fire                                           (* the next timer runs *)
| Paint.                                         (* a frame is rendered *)

Definition clickCard (i : nat) (w : World) : World :=
  match gameBoard w !! i with
  | None => w
  | Some c =>
      match cards w !! c with
      | None => w
      | Some e => handleCardClick c (front e) w
      end
  end.

Definition step (w : World) (ev : Event) : World :=
  match ev with
  | Click i => clickCard i w
  | ChangeLevel level answers => settle (startGame answers (set_levelSelect level w))
  | PlayAgain answers => if message w then settle (startGame answers w) else w
  | Wait dt => wait dt w
  | Fire => fire w
  | Paint => paint w
  end.

Definition run (evs : list Event) (w : World) : World := fold_left step evs w.

End Engine.

(** ** Observers used by the statements *)

(** The number of cards of [board] that show [s]. *)
Definition copies (s : string) (board : list Card) : nat :=
  length (List.filter (fun c => String.eqb (symbol c) s) board).

(** Every sequence of [k] comparator answers; with a fair [Math.random]
    they are equally likely. *)
Fixpoint allAnswers (k : nat) : list (list bool) :=
  match k with
  | 0 => [[]]
  | S k' => map (cons true) (allAnswers k') ++ map (cons false) (allAnswers k')
  end.

Definition sameSymbols (a b : list string) : bool :=
  bool_decide (a = b).

(** How many of the [2^k] answer sequences leave the board showing
    [arrangement]. *)
Definition frequency `{ArraySort} (totalCards k : nat) (arrangement : list string) : nat :=
  length (List.filter
            (fun answers =>
               sameSymbols (map symbol (shuffleCards defaultSymbols totalCards answers))
                           arrangement)
            (allAnswers k)).

(** Following the wording of the specification: a request is invalid when
    rows x cols is odd or exceeds twice the size of the pool. *)
Definition invalidDimensions_spec (rows cols : nat) (symbolPool : list string) : bool :=
  Nat.odd (rows * cols) || (2 * length symbolPool <? rows * cols)%nat.

(** The guard of [handleCardClick], read positively. *)
Definition accepts (cardElement : nat) (w : World) : bool :=
  match cards w !! cardElement with
  | Some e => allowClick w && negb (flipped e) && negb (matched e)
  | None => false
  end.

(** [ev] is a click that gets past the guard. *)
Definition acceptedFlip (w : World) (ev : Event) : bool :=
  match ev with
  | Click i =>
      match gameBoard w !! i with
      | Some c => accepts c w
      | None => false
      end
  | _ => false
  end.

Definition nextIsUnlock (w : World) : bool :=
  match earliest (timers w) with
  | Some t => match callback t with CallUnlock => true | _ => false end
  | None => false
  end.


(** How many events of a run satisfy [p] in the world they arrive in. *)
Fixpoint countAlong `{ArraySort} (p : World -> Event -> bool) (evs : list Event)
    (w : World) : nat :=
  match evs with
  | [] => 0
  | ev :: evs' => (if p w ev then 1 else 0) + countAlong p evs' (step w ev)
  end.

(** Whether the pair at the head of the selection shows one symbol, as
    [checkMatch] computes it. *)
Definition isMatch (w : World) : bool :=
  match selectedCards w with
  | card1 :: card2 :: _ => String.eqb (Selected.symbol card1) (Selected.symbol card2)
  | _ => false
  end.

(** ** Scenarios

    The easy level under the insertion engine with a comparator that never
    answers negative: the board shows 2 1 2 1. *)
Definition boot2x2 : World := DOMContentLoaded LEVELS.EASY [].

(** Both pairs are found, each click pair followed by its resolution
    (600 ms), the frame, the matched classes (1200 ms) and the clock ticks;
    the unlock of the second pair is due at the end (4400 ms). *)
Definition bothPairsMatched : list Event :=
  [Click 0; Click 2; Fire; Paint; Fire; Fire; Fire; Fire;
   Click 1; Click 3; Fire; Paint; Fire; Fire; Fire; Wait 400].

(** A mismatch is resolved at 600 ms and the level select is changed right
    away; at 2000 ms the player has turned two cards of the new board. *)
Definition restartMidResolution : list Event :=
  [Click 0; Click 1; Fire; ChangeLevel LEVELS.EASY []; Fire; Fire; Wait 200;
   Click 0; Click 1].

(** ** Invariants of the running page *)

(** The element [createCard] builds for a symbol. *)
Definition faceDown (symbol : string) : CardElement :=
  {| front := symbol; flipped := false; matched := false; shake := false |}.

(** [ev] starts a new game. *)
Definition restarting (w : World) (ev : Event) : bool :=
  match ev with
  | ChangeLevel _ _ => true
  | PlayAgain _ => message w
  | _ => false
  end.

Definition isTick (t : Timer) : bool :=
  match callback t with CallTick => true | _ => false end.

Definition isUnlock (t : Timer) : bool :=
  match callback t with CallUnlock => true | _ => false end.

(** What the page shows agrees with the counters. *)
Definition displaysInSync (w : World) : Prop :=
  turnsDisplay w = turns w
  /\ timerDisplay w = (seconds w / 60, seconds w mod 60).

(** The timer table holds at most one clock: every entry that ticks or
    repeats is the 1000 ms interval whose handle is in [this.timer], it is
    not due before the next full second, and the seconds counted so far do
    not run ahead of the time that has passed. *)
Definition clockSane (w : World) : Prop :=
  (forall t, In t (timers w) ->
     callback t = CallTick \/ every t <> None ->
     callback t = CallTick /\ every t = Some 1000
     /\ timer w = Some (handle t)
     /\ (seconds w + 1) * 1000 <= due t)
  /\ length (List.filter isTick (timers w)) <= 1
  /\ seconds w * 1000 <= now w.

(** Every element of [w] is still there in [w'], shows the same symbol,
    and is matched there if it was matched. *)
Definition elementsKept (w w' : World) : Prop :=
  forall c e, cards w !! c = Some e ->
    exists e', cards w' !! c = Some e' /\ front e' = front e
               /\ (matched e = true -> matched e' = true).

(** The board of [w'] lists the same elements as the board of [w], and no
    element has been created in between. *)
Definition boardKept (w w' : World) : Prop :=
  gameBoard w' = gameBoard w /\ length (cards w') = length (cards w).

(** The symbols the board shows, in board order; a reference that stands
    for no element shows nothing. *)
Definition boardSymbols (w : World) : list string :=
  flat_map (fun c => match cards w !! c with
                     | Some e => [front e]
                     | None => []
                     end) (gameBoard w).

(** The board is empty or shows a deck that [shuffleCards] has dealt. *)
Definition boardDealt `{ArraySort} (w : World) : Prop :=
  (gameBoard w = [] \/
   exists totalCards answers,
     boardSymbols w = map symbol (shuffleCards defaultSymbols totalCards answers))
  /\ length (boardSymbols w) = length (gameBoard w).

Definition isMatchedCall (t : Timer) : bool :=
  match callback t with CallMatched _ _ => true | _ => false end.

(** No pair has been matched since the page was loaded, and nothing that
    would write [gameState] is waiting. *)
Definition noMatchYet (w : World) : Prop :=
  gameState w = IDLE /\ ~ In SoundMatch (played w)
  /\ frames w = [] /\ List.filter isMatchedCall (timers w) = [].

(** A pair has been matched, and [gameState] is one of the two values
    [handleMatch] writes. *)
Definition matchSeen (w : World) : Prop :=
  In SoundMatch (played w) /\ (gameState w = CHECKING \/ gameState w = PLAYING).

(** The six orders in which the deck 1 2 1 2 of the easy level can lie. *)
Definition easyArrangements : list (list string) :=
  [["1"; "1"; "2"; "2"]; ["1"; "2"; "1"; "2"]; ["1"; "2"; "2"; "1"];
   ["2"; "1"; "1"; "2"]; ["2"; "1"; "2"; "1"]; ["2"; "2"; "1"; "1"]].

Definition isCheck (t : Timer) : bool :=
  match callback t with CallCheckMatch => true | _ => false end.

(** The resolutions waiting in the timer table. *)
Definition pendingChecks (w : World) : nat :=
  length (List.filter isCheck (timers w)).

(** A resolution is waiting only while two cards are selected, and then
    only one. *)
Definition checksSane (w : World) : Prop :=
  (length (selectedCards w) = 2 /\ pendingChecks w <= 1) \/ pendingChecks w = 0.

(** Input has been locked at time [since]: no resolution is due sooner than
    [ANIMATION_DURATION] after it, no unlock sooner than
    [CHECK_MATCH_DELAY] after that, and input is open only past that
    moment. *)
Definition lockedSince (since : nat) (w : World) : Prop :=
  since <= now w
  /\ (forall t, In t (timers w) -> isCheck t = true ->
        since + ANIMATION_DURATION <= due t)
  /\ (forall t, In t (timers w) -> isUnlock t = true ->
        since + ANIMATION_DURATION + CHECK_MATCH_DELAY <= due t)
  /\ (allowClick w = true -> since + ANIMATION_DURATION + CHECK_MATCH_DELAY <= now w).

(** Every entry of the selection names an element that exists and carries
    the symbol this element shows. *)
Definition selectionShows (w : World) : Prop :=
  forall sel, In sel (selectedCards w) ->
    exists e, cards w !! Selected.element sel = Some e
              /\ front e = Selected.symbol sel.

(** No entry of the timer table ticks or repeats. *)
Definition noClock (w : World) : Prop :=
  forall t, In t (timers w) -> callback t <> CallTick /\ every t = None.

(** The game is won and the clock has been taken down at [s] seconds. *)
Definition frozenAt (s : nat) (w : World) : Prop :=
  noClock w /\ seconds w = s /\ message w = true.

(** The unlock callbacks waiting in the timer table. *)
Definition pendingUnlocks (w : World) : nat :=
  length (List.filter isUnlock (timers w)).

(** The three phases of a game between two starts, with the number [flips]
    of flips accepted so far: input open with at most one card selected;
    two cards selected and awaiting [checkMatch]; selection cleared and
    awaiting the unlock callback. *)
Definition sessionPhase (flips : nat) (w : World) : Prop :=
  (allowClick w = true /\ length (selectedCards w) <= 1
   /\ pendingUnlocks w = 0
   /\ flips = 2 * turns w + length (selectedCards w))
  \/ (allowClick w = false /\ length (selectedCards w) = 2
      /\ pendingUnlocks w = 0
      /\ flips = 2 * turns w)
  \/ (allowClick w = false /\ selectedCards w = []
      /\ pendingUnlocks w <= 1
      /\ flips = 2 * turns w).

(** Every card of the board is an element that exists, turned down and
    unmatched, and the board shows [symbols] in order. *)
Definition freshBoard (symbols : list string) (w : World) : Prop :=
  length (gameBoard w) = length symbols
  /\ NoDup (gameBoard w)
  /\ forall i s, symbols !! i = Some s ->
       exists c, gameBoard w !! i = Some c /\ cards w !! c = Some (faceDown s).

(** * Properties *)

(** ** The sort and the shuffle *)

Lemma insertBy_Permutation {A} (x : A) sorted answers :
  Permutation (fst (insertBy x sorted answers)) (x :: sorted).
Proof.
  revert answers; induction sorted as [|y sorted IH]; intros answers; simpl.
  - reflexivity.
  - destruct (nextAnswer answers) as [negative answers'].
    destruct negative; simpl; [reflexivity|].
    specialize (IH answers').
    destruct (insertBy x sorted answers') as [l answers'']; simpl in *.
    rewrite IH. apply perm_swap.
Qed.

Lemma insertionRun_Permutation {A} (l : list A) answers :
  Permutation (fst (insertionRun l answers)) l.
Proof.
  induction l as [|x l IH]; simpl; [reflexivity|].
  destruct (insertionRun l answers) as [sorted answers']; simpl in *.
  rewrite insertBy_Permutation. now rewrite IH.
Qed.

#[export] Instance insertionSort_reorders : ArraySortReorders insertionSort.
Proof. constructor. intros A answers l. apply insertionRun_Permutation. Qed.

Lemma symbol_imap (l : list string) :
  map symbol (imap (fun id symbol => {| symbol := symbol; id := id |}) l) = l.
Proof.
  change (map symbol) with (fmap (M := list) symbol).
  rewrite fmap_imap. rewrite <- (list_fmap_id l) at 2.
  rewrite <- imap_const. reflexivity.
Qed.

Lemma id_imap_from (k : nat) (l : list string) :
  map id (imap (fun i symbol => {| symbol := symbol; id := k + i |}) l) = seq k (length l).
Proof.
  revert k; induction l as [|x l IH]; intros k; simpl; [reflexivity|].
  f_equal; [lia|].
  rewrite <- (IH (S k)). f_equal.
  apply imap_ext. intros i y _. simpl. f_equal. lia.
Qed.

Lemma id_imap (l : list string) :
  map id (imap (fun id symbol => {| symbol := symbol; id := id |}) l) = seq 0 (length l).
Proof. apply (id_imap_from 0). Qed.

Section Shuffle.
Context `{reorders : ArraySortReorders}.

Lemma shuffleCards_symbols symbols totalCards answers :
  Permutation (map symbol (shuffleCards symbols totalCards answers))
              (take (totalCards / 2) symbols ++ take (totalCards / 2) symbols).
Proof.
  unfold shuffleCards. rewrite symbol_imap. apply sortBy_Permutation.
Qed.

Lemma shuffleCards_ids symbols totalCards answers :
  map id (shuffleCards symbols totalCards answers)
  = seq 0 (length (shuffleCards symbols totalCards answers)).
Proof.
  unfold shuffleCards. rewrite id_imap, length_imap. reflexivity.
Qed.

Lemma shuffleCards_length symbols totalCards answers :
  length (shuffleCards symbols totalCards answers)
  = 2 * Nat.min (totalCards / 2) (length symbols).
Proof.
  rewrite <- (length_map symbol).
  rewrite (Permutation_length (shuffleCards_symbols _ _ _)).
  rewrite length_app, length_take. lia.
Qed.
End Shuffle.

Lemma copies_count_occ (s : string) (board : list Card) :
  copies s board = count_occ String.string_dec (map symbol board) s.
Proof.
  unfold copies. induction board as [|c board IH]; simpl; [reflexivity|].
  destruct (String.eqb_spec (symbol c) s) as [E|E];
    destruct (String.string_dec (symbol c) s); try contradiction; simpl; lia.
Qed.

Lemma NoDup_defaultSymbols : NoDup defaultSymbols.
Proof. apply (bool_decide_unpack _). vm_compute. exact I. Qed.

Lemma even_half_double (n : nat) : Nat.even n = true -> 2 * (n / 2) = n.
Proof.
  intros E. apply Nat.even_spec in E. destruct E as [k ->].
  rewrite (Nat.mul_comm 2 k), Nat.div_mul by lia. lia.
Qed.

(** *** The 2x2 board under the insertion engine *)

Lemma insertion_reads_six_answers (answers : list bool) :
  shuffleCards defaultSymbols 4 answers = shuffleCards defaultSymbols 4 (take 6 answers).
Proof.
  destruct answers as [|[] [|[] [|[] [|[] [|[] [|[] rest]]]]]]; reflexivity.
Qed.

(** Whatever the engine and however many answers it reads, an arrangement
    cannot come out of exactly one sixth of the fair answer sequences: the
    number of sequences is a power of two. *)
Lemma length_allAnswers (k : nat) : length (allAnswers k) = 2 ^ k.
Proof.
  induction k as [|k IH]; simpl; [reflexivity|].
  rewrite length_app, !length_map, IH. lia.
Qed.

Lemma three_not_dividing_power_of_two (k c : nat) : 3 * c <> 2 ^ k.
Proof.
  revert c; induction k as [|k IH]; intros c; simpl; [lia|].
  intros E. apply (IH (c / 2)).
  assert (c = 2 * (c / 2) + c mod 2) by (apply Nat.div_mod_eq).
  assert (c mod 2 < 2) by (apply Nat.mod_upper_bound; lia).
  lia.
Qed.

Lemma frequency_never_one_sixth `{ArraySort} (totalCards k : nat) (arrangement : list string) :
  6 * frequency totalCards k arrangement <> length (allAnswers k).
Proof.
  rewrite length_allAnswers. intros E.
  apply (three_not_dividing_power_of_two k (2 * frequency totalCards k arrangement)). lia.
Qed.

(** ** Flips *)

Lemma handleCardClick_rejected cardElement symbol w :
  accepts cardElement w = false -> handleCardClick cardElement symbol w = w.
Proof.
  unfold accepts, handleCardClick. destruct (cards w !! cardElement) as [e|]; [|reflexivity].
  destruct (allowClick w), (flipped e), (matched e); simpl; intros; congruence.
Qed.

Lemma handleCardClick_accepted cardElement symbol w :
  accepts cardElement w = true ->
  handleCardClick cardElement symbol w =
    let w1 := set_selectedCards
                (selectedCards w ++ [{| Selected.element := cardElement;
                                        Selected.symbol := symbol |}])
                (classList addFlipped cardElement w) in
    if Nat.eqb (length (selectedCards w)) 1
    then setTimeout CallCheckMatch ANIMATION_DURATION (updateTurns (set_allowClick false w1))
    else w1.
Proof.
  unfold accepts, handleCardClick. destruct (cards w !! cardElement) as [e|]; [|discriminate].
  destruct (allowClick w), (flipped e), (matched e); simpl; try discriminate. intros _.
  destruct w; simpl. rewrite length_app; simpl.
  rewrite Nat.add_1_r. reflexivity.
Qed.

Lemma accepts_after_flip cardElement symbol w :
  accepts cardElement w = true ->
  accepts cardElement (handleCardClick cardElement symbol w) = false.
Proof.
  intros Hacc. rewrite (handleCardClick_accepted _ _ _ Hacc).
  unfold accepts in *. destruct (cards w !! cardElement) as [e|] eqn:He; [|discriminate].
  assert (Hl : alter addFlipped cardElement (cards w) !! cardElement = Some (addFlipped e))
    by (rewrite list_lookup_alter, He; case_decide; [reflexivity|congruence]).
  destruct w; simpl in *.
  destruct (Nat.eqb (length selectedCards0) 1); simpl; rewrite Hl; simpl;
    rewrite ?andb_false_r; reflexivity.
Qed.

Lemma accepts_locked cardElement w : allowClick w = false -> accepts cardElement w = false.
Proof.
  unfold accepts. intros ->. destruct (cards w !! cardElement); reflexivity.
Qed.

(** ** What the methods leave alone *)

Lemma fold_createCard_preserves {A} (proj : World -> A) :
  (forall card w, proj (createCard card w) = proj w) ->
  forall gameCards w, proj (fold_left (fun w card => createCard card w) gameCards w) = proj w.
Proof.
  intros Hproj gameCards. induction gameCards as [|card gameCards IH]; intros w; simpl.
  - reflexivity.
  - rewrite IH. apply Hproj.
Qed.

Lemma fold_createCard_gameBoard gameCards w :
  length (gameBoard (fold_left (fun w card => createCard card w) gameCards w))
  = length (gameBoard w) + length gameCards.
Proof.
  revert w; induction gameCards as [|card gameCards IH]; intros w; simpl; [lia|].
  rewrite IH. destruct w; simpl. rewrite length_app; simpl. lia.
Qed.

Lemma fold_runFrame_preserves {A} (proj : World -> A) :
  (forall cb w, proj (runFrame cb w) = proj w) ->
  forall cbs w, proj (fold_left (fun w cb => runFrame cb w) cbs w) = proj w.
Proof.
  intros Hproj cbs. induction cbs as [|cb cbs IH]; intros w; simpl.
  - reflexivity.
  - rewrite IH. apply Hproj.
Qed.

Lemma startTimer_fields w :
  selectedCards (startTimer w) = selectedCards w
  /\ allowClick (startTimer w) = allowClick w
  /\ gameBoard (startTimer w) = gameBoard w
  /\ gameState (startTimer w) = gameState w.
Proof. destruct w as [? ? [h|] ? ? ? ? ? ? ? ? ? ? ? ? ? ? ?]; repeat split. Qed.

Lemma checkGameOver_fields w :
  selectedCards (checkGameOver w) = selectedCards w
  /\ allowClick (checkGameOver w) = allowClick w
  /\ gameState (checkGameOver w) = gameState w
  /\ memoryGameStats (checkGameOver w) = memoryGameStats w
  /\ seconds (checkGameOver w) = seconds w.
Proof.
  unfold checkGameOver. destruct (Nat.eqb (length (remainingCards w)) 0); [|repeat split].
  destruct w as [? ? [h|] ? ? ? ? ? ? ? ? ? ? ? ? ? ? ?]; repeat split.
Qed.

Lemma checkMatch_resolves w :
  2 <= length (selectedCards w) -> exists w', checkMatch w = Normal w'.
Proof.
  unfold checkMatch. destruct (selectedCards w) as [|card1 [|card2 rest]]; simpl; try lia.
  intros _. eexists. reflexivity.
Qed.

Lemma checkMatch_fields w w' :
  checkMatch w = Normal w' ->
  selectedCards w' = []
  /\ allowClick w' = allowClick w
  /\ exists h, In {| handle := h; due := now w + CHECK_MATCH_DELAY;
                     callback := CallUnlock; every := None |} (timers w').
Proof.
  unfold checkMatch. destruct (selectedCards w) as [|card1 [|card2 rest]]; try discriminate.
  intros [= <-].
  destruct (String.eqb (Selected.symbol card1) (Selected.symbol card2));
    destruct w; simpl; repeat split;
    eexists; apply in_or_app; right; left; reflexivity.
Qed.


Section Runs.
Context `{engine : ArraySort}.

Lemma startGame_fields answers w :
  selectedCards (settle (startGame answers w)) = []
  /\ allowClick (settle (startGame answers w)) = true
  /\ gameState (settle (startGame answers w)) = gameState w.
Proof.
  unfold startGame, createGameBoard.
  destruct w; simpl. destruct (getDimensions levelSelect0) as [rows cols|name]; simpl.
  - destruct (startTimer_fields
                (fold_left (fun w card => createCard card w)
                   (shuffleCards defaultSymbols (rows * cols) answers)
                   (mkWorld [] true timer0 seconds0 0 gameState0 cards0 [] levelSelect0
                      0 timerDisplay0 false played0 memoryGameStats0 now0 nextHandle0
                      timers0 frames0))) as (-> & -> & _ & ->).
    rewrite !fold_createCard_preserves by (intros card w; destruct w; reflexivity).
    repeat split.
  - repeat split.
Qed.

Lemma startGame_starts answers w rows cols :
  getDimensions (levelSelect w) = Dim rows cols ->
  exists w', startGame answers w = Normal w'
    /\ length (gameBoard w')
       = length (shuffleCards defaultSymbols (rows * cols) answers).
Proof.
  intros Hdim. unfold startGame, createGameBoard.
  destruct w; simpl in *. rewrite Hdim. eexists; split; [reflexivity|].
  match goal with |- context [startTimer ?x] =>
    destruct (startTimer_fields x) as (_ & _ & -> & _) end.
  rewrite fold_createCard_gameBoard. reflexivity.
Qed.

Lemma runCallback_selection_empty cb w :
  selectedCards w = [] -> selectedCards (runCallback cb w) = [].
Proof.
  intros Hsel. destruct cb; simpl.
  - unfold checkMatch. rewrite Hsel. exact Hsel.
  - destruct (checkGameOver_fields (set_allowClick true w)) as (-> & _).
    destruct w; exact Hsel.
  - destruct w; exact Hsel.
  - destruct w; exact Hsel.
  - destruct w; exact Hsel.
Qed.


Lemma paint_fields w :
  selectedCards (paint w) = selectedCards w /\ allowClick (paint w) = allowClick w.
Proof.
  unfold paint.
  rewrite !fold_runFrame_preserves by (intros [] w'; destruct w'; reflexivity).
  destruct w; split; reflexivity.
Qed.

Lemma wait_fields dt w :
  selectedCards (wait dt w) = selectedCards w /\ allowClick (wait dt w) = allowClick w.
Proof. unfold wait. destruct (earliest (timers w)); destruct w; split; reflexivity. Qed.

Lemma step_selection_empty w ev :
  selectedCards w = [] -> acceptedFlip w ev = false -> selectedCards (step w ev) = [].
Proof.
  intros Hsel Hflip. destruct ev as [i|level answers|answers|dt| |]; simpl in *.
  - unfold clickCard. destruct (gameBoard w !! i) as [c|]; [|exact Hsel].
    destruct (cards w !! c) as [e|]; [|exact Hsel].
    rewrite handleCardClick_rejected by exact Hflip. exact Hsel.
  - apply startGame_fields.
  - destruct (message w); [apply startGame_fields | exact Hsel].
  - rewrite (proj1 (wait_fields dt w)). exact Hsel.
  - unfold fire. destruct (earliest (timers w)) as [t|]; [|exact Hsel].
    apply runCallback_selection_empty. destruct w; exact Hsel.
  - rewrite (proj1 (paint_fields w)). exact Hsel.
Qed.

Lemma run_selection_empty evs w :
  selectedCards w = [] -> countAlong acceptedFlip evs w = 0 -> selectedCards (run evs w) = [].
Proof.
  revert w; induction evs as [|ev evs IH]; intros w Hsel Hcount; simpl in *.
  - exact Hsel.
  - destruct (acceptedFlip w ev) eqn:Hflip; [discriminate|].
    apply IH; [apply step_selection_empty; assumption | exact Hcount].
Qed.



End Runs.


(** * The claims *)

(** C1 (the code departs from the claim).  On the easy board, once both
    pairs carry the matched class the pending callback runs [checkGameOver]:
    the interval is cleared, so later ticks leave the seconds alone, and the
    win cue is played, but [gameState] stays PLAYING and no Stats record is
    stored.  The first definition of [checkGameOver], which the second one
    replaces, would have set FINISHED and stored the record. *)
Theorem checkGameOver_never_finishes :
  let w := run bothPairsMatched boot2x2 in
  let over := fire w in
  remainingCards w = [] /\ nextIsUnlock w = true
  /\ gameState over = PLAYING
  /\ memoryGameStats over = []
  /\ played over = [SoundWin; SoundMatch; SoundMatch]
  /\ timers over = []
  /\ seconds (run [Wait 5000; Fire; Wait 5000] over) = seconds over
  /\ gameState (fst (checkGameOver_first (set_allowClick true w))) = FINISHED
  /\ memoryGameStats (fst (checkGameOver_first (set_allowClick true w)))
     = [{| Stats.level := "2x2"; Stats.turns := 2; Stats.time := 4; Stats.date := 4400 |}].
Proof. vm_compute. repeat split. Qed.

(** C2 (counterexample).  On the easy board the 64 equally likely answer
    sequences of the comparator do not spread evenly over the arrangements
    of the deck: 1 1 2 2 comes out of twelve of them, 2 2 1 1 of six. *)
Lemma sort_comparator_not_uniform :
  frequency 4 6 ["1"; "1"; "2"; "2"] = 12 /\ frequency 4 6 ["2"; "2"; "1"; "1"] = 6
  /\ frequency 4 6 ["1"; "1"; "2"; "2"] <> frequency 4 6 ["2"; "2"; "1"; "1"].
Proof. vm_compute. repeat split; discriminate. Qed.

(** C2 (amended).  The board shows the first (rows x cols)/2 symbols of the
    pool twice, in the order the engine's sort leaves them under the random
    comparator, and the cards carry the ids 0, 1, 2, ... in board order. *)
Theorem shuffleCards_reorders_doubled_prefix `{reorders : ArraySortReorders}
    (symbols : list string) (rows cols : nat) (answers : list bool) :
  let board := shuffleCards symbols (rows * cols) answers in
  let halfDeck := take (rows * cols / 2) symbols in
  Permutation (map symbol board) (halfDeck ++ halfDeck)
  /\ map id board = seq 0 (length board).
Proof.
  split; [apply shuffleCards_symbols | apply shuffleCards_ids].
Qed.

Lemma shuffleCards_reorders_doubled_prefix_witness :
  Permutation (map symbol (shuffleCards defaultSymbols (2 * 2) [true; false; true]))
              (["1"; "2"] ++ ["1"; "2"])
  /\ map id (shuffleCards defaultSymbols (2 * 2) [true; false; true]) = seq 0 4.
Proof.
  exact (@shuffleCards_reorders_doubled_prefix insertionSort insertionSort_reorders
           defaultSymbols 2 2 [true; false; true]).
Defined.

(** C3 (counterexample).  A 1 x 3 request and an 8 x 8 request are invalid
    in the words of the specification, yet [shuffleCards] returns a board
    for both: two cards for the first, sixty for the second. *)
Lemma invalid_request_builds_board :
  invalidDimensions_spec 1 3 defaultSymbols = true
  /\ shuffleCards defaultSymbols (1 * 3) []
     = [{| symbol := "1"; id := 0 |}; {| symbol := "1"; id := 1 |}]
  /\ invalidDimensions_spec 8 8 defaultSymbols = true
  /\ length (shuffleCards defaultSymbols (8 * 8) []) = 60.
Proof. vm_compute. repeat split. Qed.

(** C3 (amended).  Board creation has no dimension check: for every
    rows x cols the deck has 2 x min((rows x cols)/2, |pool|) cards, and
    whenever the level lookup yields a pair [startGame] returns normally
    with that deck on the board. *)
Theorem board_request_never_rejected `{reorders : ArraySortReorders}
    (rows cols : nat) (answers : list bool) (w : World) :
  length (shuffleCards defaultSymbols (rows * cols) answers)
  = 2 * Nat.min (rows * cols / 2) (length defaultSymbols)
  /\ (getDimensions (levelSelect w) = Dim rows cols ->
      exists w', startGame answers w = Normal w'
        /\ length (gameBoard w') = 2 * Nat.min (rows * cols / 2) (length defaultSymbols)).
Proof.
  split; [apply shuffleCards_length|].
  intros Hdim. destruct (startGame_starts answers w rows cols Hdim) as (w' & Hw' & Hlen).
  exists w'. split; [exact Hw'|]. rewrite Hlen. apply shuffleCards_length.
Qed.

Lemma board_request_never_rejected_witness :
  length (shuffleCards defaultSymbols (4 * 3) []) = 2 * Nat.min (4 * 3 / 2) 30
  /\ exists w', startGame [] (constructor "4x3") = Normal w'
       /\ length (gameBoard w') = 2 * Nat.min (4 * 3 / 2) 30.
Proof.
  destruct (@board_request_never_rejected insertionSort insertionSort_reorders
              4 3 [] (constructor "4x3")) as [Hlen Hstart].
  split; [exact Hlen | exact (Hstart eq_refl)].
Defined.




(** C5 (the code departs from the claim).  [startGame] clears the interval
    of the previous game but none of its timeouts.  A mismatch is resolved at
    600 ms and the level is changed at once; the unlock callback of the old
    game (handle 3, older than the interval 4 of the new game) stays due at
    2200 ms.  At 2000 ms the player has turned two cards of the new board
    and input is locked; at 2200 ms the old callback sets [allowClick], a
    third card is accepted into the selection, and after the resolution of
    the first two it stays face up outside any selection. *)
Theorem stale_unlock_reopens_new_game :
  let w := run restartMidResolution boot2x2 in
  now w = 2000 /\ gameBoard w = [4; 5; 6; 7] /\ timer w = Some 4
  /\ length (selectedCards w) = 2 /\ allowClick w = false
  /\ earliest (timers w)
     = Some {| handle := 3; due := 2200; callback := CallUnlock; every := None |}
  /\ allowClick (fire w) = true
  /\ acceptedFlip (fire w) (Click 2) = true
  /\ map Selected.element (selectedCards (run [Fire; Click 2] w)) = [4; 5; 6]
  /\ selectedCards (run [Fire; Click 2; Fire; Fire; Fire; Fire; Fire] w) = []
  /\ flipped <$> cards (run [Fire; Click 2; Fire; Fire; Fire; Fire; Fire] w) !! 6 = Some true
  /\ accepts 6 (run [Fire; Click 2; Fire; Fire; Fire; Fire; Fire] w) = false.
Proof. vm_compute. repeat split. Qed.

(** C6.  For rows x cols even and at most twice the size of the pool the
    board has rows x cols cards, and every symbol that shows on it shows on
    exactly two cards. *)
Theorem board_has_two_cards_per_symbol `{reorders : ArraySortReorders}
    (rows cols : nat) (answers : list bool) :
  Nat.even (rows * cols) = true ->
  rows * cols <= 2 * length defaultSymbols ->
  let board := shuffleCards defaultSymbols (rows * cols) answers in
  length board = rows * cols
  /\ forall s, In s (map symbol board) -> copies s board = 2.
Proof.
  intros Heven Hfits board. split.
  - subst board. rewrite shuffleCards_length.
    pose proof (even_half_double _ Heven). lia.
  - intros s Hin. subst board. rewrite copies_count_occ.
    pose proof (shuffleCards_symbols defaultSymbols (rows * cols) answers) as Hperm.
    rewrite (proj1 (Permutation_count_occ String.string_dec _ _) Hperm).
    apply (Permutation_in _ Hperm) in Hin.
    rewrite count_occ_app.
    set (halfDeck := take (rows * cols / 2) defaultSymbols) in *.
    assert (Hnodup : NoDup halfDeck)
      by (eapply sublist_NoDup; [apply NoDup_defaultSymbols | apply sublist_take]).
    assert (Hhalf : In s halfDeck) by (apply in_app_or in Hin; tauto).
    apply (count_occ_In String.string_dec) in Hhalf.
    apply NoDup_ListNoDup in Hnodup.
    pose proof (proj1 (NoDup_count_occ String.string_dec halfDeck) Hnodup s).
    lia.
Qed.

Lemma board_has_two_cards_per_symbol_witness :
  Nat.even (4 * 5) = true /\ 4 * 5 <= 2 * length defaultSymbols
  /\ length (shuffleCards defaultSymbols (4 * 5) [true; false; false; true]) = 4 * 5
  /\ forall s, In s (map symbol (shuffleCards defaultSymbols (4 * 5) [true; false; false; true])) ->
       copies s (shuffleCards defaultSymbols (4 * 5) [true; false; false; true]) = 2.
Proof.
  assert (Hfits : 4 * 5 <= 2 * length defaultSymbols) by (vm_compute; lia).
  split; [reflexivity|]. split; [exact Hfits|].
  exact (@board_has_two_cards_per_symbol insertionSort insertionSort_reorders
           4 5 [true; false; false; true] eq_refl Hfits).
Defined.

(** C7 (counterexample).  Right after the game has started [gameState] is
    IDLE, not PLAYING, and the click on card 0 is taken: the card is turned
    and enters the selection. *)
Lemma flip_accepted_while_idle :
  gameState boot2x2 = IDLE /\ gameState boot2x2 <> PLAYING
  /\ selectedCards boot2x2 = []
  /\ selectedCards (step boot2x2 (Click 0))
     = [{| Selected.element := 0; Selected.symbol := "2" |}]
  /\ flipped <$> cards (step boot2x2 (Click 0)) !! 0 = Some true.
Proof. vm_compute. repeat split; discriminate. Qed.

(** C7 (amended).  A flip request changes nothing at all, the whole world
    stays as it was, whenever [allowClick] is false or the card already has
    the flipped or the matched class; in particular a second request for the
    same card right after the first adds nothing. *)
Theorem ignored_flip_changes_nothing (cardElement : nat) (symbol : string) (w : World) :
  (allowClick w = false
   \/ (exists e, cards w !! cardElement = Some e /\ (flipped e = true \/ matched e = true)) ->
   handleCardClick cardElement symbol w = w)
  /\ handleCardClick cardElement symbol (handleCardClick cardElement symbol w)
     = handleCardClick cardElement symbol w.
Proof.
  split.
  - intros Hguard. apply handleCardClick_rejected.
    destruct Hguard as [Hlock | (e & He & Hclass)]; [apply accepts_locked, Hlock|].
    unfold accepts. rewrite He.
    destruct Hclass as [-> | ->]; rewrite ?andb_false_r; reflexivity.
  - destruct (accepts cardElement w) eqn:Hacc.
    + apply handleCardClick_rejected, accepts_after_flip, Hacc.
    + rewrite !(handleCardClick_rejected _ _ _ Hacc). reflexivity.
Qed.

Lemma ignored_flip_changes_nothing_witness :
  let w := run [Click 0; Click 1] boot2x2 in
  allowClick w = false /\ handleCardClick 2 "2" w = w.
Proof.
  split; [reflexivity|].
  exact (proj1 (ignored_flip_changes_nothing 2 "2" (run [Click 0; Click 1] boot2x2))
           (or_introl eq_refl)).
Defined.

(** C8.  A flip that is taken and brings the selection to two cards adds
    exactly one to the turn counter; a call that leaves one card in the
    selection leaves the counter as it was. *)
Theorem turns_count_completed_pairs (cardElement : nat) (symbol : string) (w : World) :
  let w' := handleCardClick cardElement symbol w in
  (accepts cardElement w = true -> length (selectedCards w') = 2 -> turns w' = S (turns w))
  /\ (length (selectedCards w') = 1 -> turns w' = turns w).
Proof.
  intros w'. subst w'. destruct (accepts cardElement w) eqn:Hacc.
  - rewrite (handleCardClick_accepted _ _ _ Hacc).
    destruct (Nat.eqb (length (selectedCards w)) 1) eqn:E.
    + apply Nat.eqb_eq in E. destruct w; simpl in *.
      rewrite length_app; simpl. split; [reflexivity | lia].
    + apply Nat.eqb_neq in E. destruct w; simpl in *.
      rewrite length_app; simpl. split; [lia | reflexivity].
  - rewrite (handleCardClick_rejected _ _ _ Hacc). split; [discriminate | reflexivity].
Qed.

Lemma turns_count_completed_pairs_witness :
  let w := run [Click 0] boot2x2 in
  accepts 1 w = true /\ turns (handleCardClick 1 "1" w) = S (turns w)
  /\ turns (handleCardClick 0 "2" boot2x2) = turns boot2x2.
Proof.
  split; [reflexivity|]. split.
  - exact (proj1 (turns_count_completed_pairs 1 "1" (run [Click 0] boot2x2)) eq_refl eq_refl).
  - exact (proj2 (turns_count_completed_pairs 0 "2" boot2x2) eq_refl).
Defined.

(** C9.  A resolution takes place whenever two cards are selected; after it,
    match or mismatch, the selection is empty, and it is still empty at the
    end of every run of events in which no flip has been accepted. *)
Theorem selection_empty_after_resolution `{engine : ArraySort} (w : World) :
  (2 <= length (selectedCards w) -> exists w', checkMatch w = Normal w')
  /\ forall w' evs,
       checkMatch w = Normal w' ->
       countAlong acceptedFlip evs w' = 0 ->
       length (selectedCards (run evs w')) = 0.
Proof.
  split; [apply checkMatch_resolves|].
  intros w' evs Hres Hnone.
  rewrite run_selection_empty; [reflexivity | | exact Hnone].
  apply (checkMatch_fields _ _ Hres).
Qed.

Lemma selection_empty_after_resolution_witness :
  let w := run [Click 0; Click 1] boot2x2 in
  let w' := settle (checkMatch w) in
  isMatch w = false
  /\ length (selectedCards (run [Click 2; Fire; Paint; Wait 100; Click 3] w')) = 0
  /\ isMatch (run [Click 0; Click 2] boot2x2) = true
  /\ length (selectedCards (run [Click 1; Paint; Fire]
                              (settle (checkMatch (run [Click 0; Click 2] boot2x2))))) = 0.
Proof.
  split; [reflexivity|]. split; [|split; [reflexivity|]].
  - exact (proj2 (@selection_empty_after_resolution insertionSort
                    (run [Click 0; Click 1] boot2x2))
             _ [Click 2; Fire; Paint; Wait 100; Click 3] eq_refl eq_refl).
  - exact (proj2 (@selection_empty_after_resolution insertionSort
                    (run [Click 0; Click 2] boot2x2))
             _ [Click 1; Paint; Fire] eq_refl eq_refl).
Defined.

(** ** The level lookup *)

Lemma getDimensions_own_or_default (level : string) :
  existsb (String.eqb level) objectPrototypeKeys = false ->
  exists rows cols,
    getDimensions level = Dim rows cols
    /\ Nat.even (rows * cols) = true
    /\ rows * cols / 2 <= length defaultSymbols.
Proof.
  intros Hown. unfold getDimensions. rewrite Hown. unfold dimensions, ownProperty.
  repeat match goal with
         | |- context [String.eqb ?k level] =>
             destruct (String.eqb k level);
             [do 2 eexists; split; [reflexivity | split; [reflexivity | vm_compute; lia]]|]
         end.
  do 2 eexists; split; [reflexivity | split; [reflexivity | vm_compute; lia]].
Qed.

(** C10 (the code departs from the claim).  The level string "constructor"
    is no key of the table, but the table inherits a member of that name, so
    the lookup returns that member and not [4, 4]; [startGame] then throws in
    [createGameBoard] with the board emptied and no timer started. *)
Theorem getDimensions_returns_inherited_member :
  ownProperty dimensions "constructor" = None
  /\ getDimensions "constructor" = Inherited "constructor"
  /\ getDimensions "constructor" <> Dim 4 4
  /\ exists w, startGame [] (constructor "constructor") = TypeError w
       /\ gameBoard w = [] /\ timers w = [] /\ timer w = None.
Proof.
  split; [reflexivity|]. split; [reflexivity|]. split; [discriminate|].
  eexists. split; [reflexivity|]. repeat split.
Qed.


(** * Further properties *)

Open Scope list_scope.

(** ** Runs, step by step *)

Section Stepwise.
Context `{engine : ArraySort}.

Lemma run_app evs1 evs2 w : run (evs1 ++ evs2) w = run evs2 (run evs1 w).
Proof. unfold run. apply fold_left_app. Qed.

Lemma run_preserves (P : World -> Prop) :
(forall w ev, P w -> P (step w ev)) ->
forall evs w, P w -> P (run evs w).
Proof.
intros Hstep evs. induction evs as [|ev evs IH]; intros w HP; simpl; [exact HP|].
apply IH, Hstep, HP.
Qed.

Lemma step_preserves (P : World -> Prop) :
(forall c s w, P w -> P (handleCardClick c s w)) ->
(forall answers level w, P w -> P (settle (startGame answers (set_levelSelect level w)))) ->
(forall answers w, P w -> P (settle (startGame answers w))) ->
(forall dt w, P w -> P (wait dt w)) ->
(forall w, P w -> P (fire w)) ->
(forall w, P w -> P (paint w)) ->
forall w ev, P w -> P (step w ev).
Proof.
intros Hclick Hlevel Hagain Hwait Hfire Hpaint w ev HP.
destruct ev as [i|level answers|answers|dt| |]; simpl.
- unfold clickCard. destruct (gameBoard w !! i) as [c|]; [|exact HP].
  destruct (cards w !! c) as [e|]; [|exact HP]. apply Hclick, HP.
- apply Hlevel, HP.
- destruct (message w); [apply Hagain, HP | exact HP].
- apply Hwait, HP.
- apply Hfire, HP.
- apply Hpaint, HP.
Qed.

End Stepwise.

(** ** What a new game sets up *)

Lemma startTimer_effect w :
  seconds (startTimer w) = 0
  /\ timerDisplay (startTimer w) = (0, 0)
  /\ timer (startTimer w) = Some (nextHandle w)
  /\ nextHandle (startTimer w) = S (nextHandle w)
  /\ timers (startTimer w)
     = (match timer w with
        | Some h => List.filter (fun t => negb (Nat.eqb (handle t) h)) (timers w)
        | None => timers w
        end ++ [{| handle := nextHandle w; due := now w + 1000;
                   callback := CallTick; every := Some 1000 |}])%list
  /\ turns (startTimer w) = turns w
  /\ turnsDisplay (startTimer w) = turnsDisplay w
  /\ cards (startTimer w) = cards w
  /\ gameBoard (startTimer w) = gameBoard w
  /\ memoryGameStats (startTimer w) = memoryGameStats w
  /\ played (startTimer w) = played w
  /\ now (startTimer w) = now w
  /\ frames (startTimer w) = frames w
  /\ message (startTimer w) = message w
  /\ levelSelect (startTimer w) = levelSelect w.
Proof. destruct w as [? ? [h|] ? ? ? ? ? ? ? ? ? ? ? ? ? ? ?]; repeat split. Qed.

Lemma fold_createCard_cards gameCards w :
  cards (fold_left (fun w card => createCard card w) gameCards w)
  = cards w ++ map (fun card => faceDown (symbol card)) gameCards
  /\ gameBoard (fold_left (fun w card => createCard card w) gameCards w)
     = gameBoard w ++ seq (length (cards w)) (length gameCards).
Proof.
  revert w; induction gameCards as [|card gameCards IH]; intros w; simpl.
  - rewrite !app_nil_r. split; reflexivity.
  - destruct (IH (createCard card w)) as [-> ->].
    destruct w; simpl. rewrite length_app; simpl.
    rewrite <- !app_assoc. simpl. rewrite Nat.add_1_r. split; reflexivity.
Qed.

Section NewGame.
Context `{engine : ArraySort}.

(** The fields [startGame] writes whatever the level is. *)
Lemma startGame_resets answers w :
let w' := settle (startGame answers w) in
turns w' = 0 /\ turnsDisplay w' = 0 /\ message w' = false
/\ memoryGameStats w' = memoryGameStats w
/\ played w' = played w
/\ now w' = now w
/\ frames w' = frames w
/\ levelSelect w' = levelSelect w.
Proof.
unfold startGame, createGameBoard.
destruct w; simpl. destruct (getDimensions levelSelect0) as [rows cols|name]; simpl.
- match goal with |- context [startTimer ?x] =>
    destruct (startTimer_effect x)
      as (_ & _ & _ & _ & _ & -> & -> & _ & _ & -> & -> & -> & -> & -> & ->) end.
  rewrite !fold_createCard_preserves by (intros card w; destruct w; reflexivity).
  repeat split.
- repeat split.
Qed.

(** A level that yields a pair: the clock restarts and the deck is laid out
    as new elements behind the ones that exist. *)
Lemma startGame_deals answers w rows cols :
getDimensions (levelSelect w) = Dim rows cols ->
let deck := shuffleCards defaultSymbols (rows * cols) answers in
let w' := settle (startGame answers w) in
startGame answers w = Normal w'
/\ cards w' = cards w ++ map (fun card => faceDown (symbol card)) deck
/\ gameBoard w' = seq (length (cards w)) (length deck)
/\ seconds w' = 0 /\ timerDisplay w' = (0, 0)
/\ timer w' = Some (nextHandle w)
/\ timers w'
   = (match timer w with
      | Some h => List.filter (fun t => negb (Nat.eqb (handle t) h)) (timers w)
      | None => timers w
      end ++ [{| handle := nextHandle w; due := now w + 1000;
                 callback := CallTick; every := Some 1000 |}])%list.
Proof.
intros Hdim. unfold startGame, createGameBoard.
destruct w; simpl in *. rewrite Hdim. simpl.
split; [reflexivity|].
match goal with |- context [startTimer ?x] =>
  destruct (startTimer_effect x)
    as (-> & -> & -> & _ & -> & _ & _ & -> & -> & _) end.
match goal with |- context [fold_left ?f ?l ?x] =>
  destruct (fold_createCard_cards l x) as [-> ->] end.
rewrite !fold_createCard_preserves by (intros card w; destruct w; reflexivity).
simpl. repeat split.
Qed.

(** A level that names an inherited member: the board is emptied and
    nothing else of the clock or the elements is touched. *)
Lemma startGame_throws answers w name :
getDimensions (levelSelect w) = Inherited name ->
let w' := settle (startGame answers w) in
startGame answers w = TypeError w'
/\ cards w' = cards w /\ gameBoard w' = []
/\ seconds w' = seconds w /\ timerDisplay w' = timerDisplay w
/\ timer w' = timer w /\ timers w' = timers w.
Proof.
intros Hdim. unfold startGame, createGameBoard.
destruct w; simpl in *. rewrite Hdim. simpl. repeat split.
Qed.

End NewGame.

Lemma deck_two_per_symbol `{reorders : ArraySortReorders}
    (symbols : list string) (totalCards : nat) (answers : list bool) (s : string) :
  NoDup symbols ->
  In s (map symbol (shuffleCards symbols totalCards answers)) ->
  copies s (shuffleCards symbols totalCards answers) = 2.
Proof.
  intros Hpool Hin. rewrite copies_count_occ.
  pose proof (shuffleCards_symbols symbols totalCards answers) as Hperm.
  rewrite (proj1 (Permutation_count_occ String.string_dec _ _) Hperm).
  apply (Permutation_in _ Hperm) in Hin.
  rewrite count_occ_app.
  set (halfDeck := take (totalCards / 2) symbols) in *.
  assert (Hnodup : NoDup halfDeck)
    by (eapply sublist_NoDup; [exact Hpool | apply sublist_take]).
  assert (Hhalf : In s halfDeck) by (apply in_app_or in Hin; tauto).
  apply (count_occ_In String.string_dec) in Hhalf.
  apply NoDup_ListNoDup in Hnodup.
  pose proof (proj1 (NoDup_count_occ String.string_dec halfDeck) Hnodup s).
  lia.
Qed.

Lemma freshBoard_appended (old : list CardElement) (symbols : list string) (w : World) :
  cards w = old ++ map faceDown symbols ->
  gameBoard w = seq (length old) (length symbols) ->
  freshBoard symbols w.
Proof.
  intros Hcards Hboard. unfold freshBoard. rewrite Hboard, Hcards.
  split; [apply length_seq|]. split; [apply NoDup_ListNoDup, seq_NoDup|].
  intros i s Hi. exists (length old + i).
  pose proof (lookup_lt_Some _ _ _ Hi) as Hlt.
  split; [apply lookup_seq_lt, Hlt|].
  rewrite lookup_app_r by lia.
  replace (length old + i - length old) with i by lia.
  change (map faceDown symbols) with (faceDown <$> symbols).
  rewrite list_lookup_fmap, Hi. reflexivity.
Qed.

(** X1.  For every level string that is not an inherited member name a new
    game starts normally: the lookup gives a pair with rows x cols cards on
    the board, all of them new elements turned down and unmatched that show
    the shuffled deck in order, every symbol on exactly two cards; the
    selection is empty, input is open, turns and seconds are zero, and the
    elements of earlier games are as they were. *)
Theorem newGame_deals_fresh_pairs `{reorders : ArraySortReorders}
    (answers : list bool) (w : World) :
  existsb (String.eqb (levelSelect w)) objectPrototypeKeys = false ->
  exists rows cols w',
    getDimensions (levelSelect w) = Dim rows cols
    /\ startGame answers w = Normal w'
    /\ freshBoard (map symbol (shuffleCards defaultSymbols (rows * cols) answers)) w'
    /\ length (gameBoard w') = rows * cols
    /\ (forall s, In s (map symbol (shuffleCards defaultSymbols (rows * cols) answers)) ->
          copies s (shuffleCards defaultSymbols (rows * cols) answers) = 2)
    /\ selectedCards w' = [] /\ allowClick w' = true
    /\ turns w' = 0 /\ seconds w' = 0
    /\ (forall c e, cards w !! c = Some e -> cards w' !! c = Some e).
Proof.
  intros Hown.
  destruct (getDimensions_own_or_default _ Hown) as (rows & cols & Hdim & Heven & Hfits).
  destruct (startGame_deals answers w rows cols Hdim)
    as (Hstart & Hcards & Hboard & Hsec & _).
  destruct (startGame_fields answers w) as (Hsel & Hallow & _).
  destruct (startGame_resets answers w) as (Hturns & _).
  exists rows, cols, (settle (startGame answers w)).
  split; [exact Hdim|]. split; [exact Hstart|].
  split.
  { apply (freshBoard_appended (cards w)).
    - rewrite Hcards, map_map. reflexivity.
    - rewrite Hboard, length_map. reflexivity. }
  split.
  { rewrite Hboard, length_seq, shuffleCards_length.
    pose proof (even_half_double _ Heven). lia. }
  split; [intros s; apply deck_two_per_symbol, NoDup_defaultSymbols|].
  split; [exact Hsel|]. split; [exact Hallow|].
  split; [exact Hturns|]. split; [exact Hsec|].
  intros c e Hc. rewrite Hcards. apply lookup_app_l_Some, Hc.
Qed.

Lemma newGame_deals_fresh_pairs_witness :
  exists rows cols w',
    getDimensions "4x6" = Dim rows cols
    /\ startGame [true; false] (constructor "4x6") = Normal w'
    /\ length (gameBoard w') = rows * cols
    /\ allowClick w' = true.
Proof.
  destruct (@newGame_deals_fresh_pairs insertionSort insertionSort_reorders
              [true; false] (constructor "4x6") eq_refl)
    as (rows & cols & w' & Hdim & Hstart & _ & Hlen & _ & _ & Hallow & _).
  exists rows, cols, w'. repeat split; assumption.
Defined.

(** ** Counters and what the page shows *)

Lemma fire_preserves `{engine : ArraySort} (P : World -> Prop) :
  (forall w n ts, P w -> P (set_timers ts (set_now n w))) ->
  (forall cb w, P w -> P (runCallback cb w)) ->
  forall w, P w -> P (fire w).
Proof.
  intros Htable Hcb w HP. unfold fire.
  destruct (earliest (timers w)) as [t|]; [|exact HP].
  apply Hcb, Htable, HP.
Qed.

Lemma handleCardClick_cases (P : World -> Prop) cardElement symbol w :
  (accepts cardElement w = false -> P w) ->
  (accepts cardElement w = true ->
   let w1 := set_selectedCards
               (selectedCards w ++ [{| Selected.element := cardElement;
                                       Selected.symbol := symbol |}])
               (classList addFlipped cardElement w) in
   (Nat.eqb (length (selectedCards w)) 1 = false -> P w1)
   /\ (Nat.eqb (length (selectedCards w)) 1 = true ->
       P (setTimeout CallCheckMatch ANIMATION_DURATION
            (updateTurns (set_allowClick false w1))))) ->
  P (handleCardClick cardElement symbol w).
Proof.
  intros Hrej Hacc. destruct (accepts cardElement w) eqn:E.
  - rewrite (handleCardClick_accepted _ _ _ E). simpl.
    destruct (Hacc eq_refl) as [Hone Htwo].
    destruct (Nat.eqb (length (selectedCards w)) 1); [apply Htwo | apply Hone]; reflexivity.
  - rewrite (handleCardClick_rejected _ _ _ E). apply Hrej. reflexivity.
Qed.

Lemma checkMatch_cases (P : World -> Prop) w :
  (length (selectedCards w) < 2 -> checkMatch w = TypeError w -> P w) ->
  (forall card1 card2 rest,
     selectedCards w = card1 :: card2 :: rest ->
     P (setTimeout CallUnlock CHECK_MATCH_DELAY
          (set_selectedCards []
             (if String.eqb (Selected.symbol card1) (Selected.symbol card2)
              then handleMatch card1 card2 w else handleMismatch card1 card2 w)))) ->
  P (settle (checkMatch w)).
Proof.
  intros Hthrow Hres. unfold checkMatch in *.
  destruct (selectedCards w) as [|card1 [|card2 rest]] eqn:E; simpl.
  - apply Hthrow; [simpl; lia | reflexivity].
  - apply Hthrow; [simpl; lia | reflexivity].
  - apply (Hres card1 card2 rest). reflexivity.
Qed.

Section Displays.
Context `{engine : ArraySort}.

Lemma displaysInSync_step w ev : displaysInSync w -> displaysInSync (step w ev).
Proof.
revert w ev. apply step_preserves; unfold displaysInSync.
- intros c s w Hw. apply handleCardClick_cases.
  + intros _. exact Hw.
  + intros _. split; intros _; destruct w; simpl in *; destruct Hw as [-> ->]; split; reflexivity.
- intros answers level w [_ Htime].
  destruct (startGame_resets answers (set_levelSelect level w)) as (-> & -> & _).
  split; [reflexivity|].
  destruct (getDimensions (levelSelect (set_levelSelect level w))) as [rows cols|name] eqn:Hdim.
  + destruct (startGame_deals answers _ rows cols Hdim) as (_ & _ & _ & -> & -> & _).
    reflexivity.
  + destruct (startGame_throws answers _ name Hdim) as (_ & _ & _ & -> & -> & _).
    destruct w; exact Htime.
- intros answers w [_ Htime].
  destruct (startGame_resets answers w) as (-> & -> & _).
  split; [reflexivity|].
  destruct (getDimensions (levelSelect w)) as [rows cols|name] eqn:Hdim.
  + destruct (startGame_deals answers _ rows cols Hdim) as (_ & _ & _ & -> & -> & _).
    reflexivity.
  + destruct (startGame_throws answers _ name Hdim) as (_ & _ & _ & -> & -> & _).
    exact Htime.
- intros dt w Hw. unfold wait. destruct (earliest (timers w)); destruct w; exact Hw.
- apply (fire_preserves (fun w => turnsDisplay w = turns w
                                   /\ timerDisplay w = (seconds w / 60, seconds w mod 60))).
  + intros w n ts Hw. destruct w; exact Hw.
  + intros cb w Hw. destruct cb; simpl.
    * apply checkMatch_cases; [intros _ _; exact Hw|].
      intros card1 card2 rest _.
      destruct (String.eqb (Selected.symbol card1) (Selected.symbol card2));
        destruct w; exact Hw.
    * unfold checkGameOver.
      destruct (Nat.eqb (length (remainingCards (set_allowClick true w))) 0);
        destruct w as [? ? [h|] ? ? ? ? ? ? ? ? ? ? ? ? ? ? ?]; exact Hw.
    * destruct w; exact Hw.
    * destruct w; exact Hw.
    * destruct w; simpl in *. split; [apply Hw | reflexivity].
- intros w Hw. unfold paint.
  rewrite !fold_runFrame_preserves by (intros [] w'; destruct w'; reflexivity).
  destruct w; exact Hw.
Qed.

End Displays.

Section Reachable.
Context `{engine : ArraySort}.

Lemma boot_as_step level answers :
DOMContentLoaded level answers = step (constructor level) (ChangeLevel level answers).
Proof. reflexivity. Qed.

Lemma reachable_invariant (P : World -> Prop) :
(forall level, P (constructor level)) ->
(forall w ev, P w -> P (step w ev)) ->
forall evs level answers, P (run evs (DOMContentLoaded level answers)).
Proof.
intros Hinit Hstep evs level answers.
apply run_preserves; [exact Hstep|].
rewrite boot_as_step. apply Hstep, Hinit.
Qed.

Lemma memoryGameStats_empty_step w ev :
memoryGameStats w = [] -> memoryGameStats (step w ev) = [].
Proof.
revert w ev. apply (step_preserves (fun w => memoryGameStats w = [])).
- intros c s w Hw. apply handleCardClick_cases.
  + intros _. exact Hw.
  + intros _. split; intros _; destruct w; exact Hw.
- intros answers level w Hw.
  destruct (startGame_resets answers (set_levelSelect level w)) as (_ & _ & _ & -> & _).
  destruct w; exact Hw.
- intros answers w Hw.
  destruct (startGame_resets answers w) as (_ & _ & _ & -> & _). exact Hw.
- intros dt w Hw. unfold wait. destruct (earliest (timers w)); destruct w; exact Hw.
- apply (fire_preserves (fun w => memoryGameStats w = [])).
  + intros w n ts Hw. destruct w; exact Hw.
  + intros cb w Hw. destruct cb; simpl.
    * apply checkMatch_cases; [intros _ _; exact Hw|].
      intros card1 card2 rest _.
      destruct (String.eqb (Selected.symbol card1) (Selected.symbol card2));
        destruct w; exact Hw.
    * destruct (checkGameOver_fields (set_allowClick true w)) as (_ & _ & _ & -> & _).
      destruct w; exact Hw.
    * destruct w; exact Hw.
    * destruct w; exact Hw.
    * destruct w; exact Hw.
- intros w Hw. unfold paint.
  rewrite fold_runFrame_preserves by (intros [] w'; destruct w'; reflexivity).
  destruct w; exact Hw.
Qed.

End Reachable.

(** X2.  After every run of events the turn display shows the turn counter
    and the time display shows the seconds split into minutes and a rest
    below sixty. *)
Theorem displays_follow_counters `{engine : ArraySort}
    (evs : list Event) (level : string) (answers : list bool) :
  let w := run evs (DOMContentLoaded level answers) in
  turnsDisplay w = turns w
  /\ timerDisplay w = (seconds w / 60, seconds w mod 60)
  /\ snd (timerDisplay w) < 60
  /\ 60 * fst (timerDisplay w) + snd (timerDisplay w) = seconds w.
Proof.
  intros w.
  assert (Hsync : displaysInSync w).
  { apply (reachable_invariant displaysInSync).
    - intros l. split; reflexivity.
    - apply @displaysInSync_step. }
  destruct Hsync as [Hturns Htime]. rewrite Htime. cbn [fst snd].
  split; [exact Hturns|]. split; [reflexivity|].
  split; [apply Nat.mod_upper_bound; lia|].
  symmetry. apply Nat.div_mod_eq.
Qed.

(** X3.  No run of events ever stores a record of a finished game:
    [saveGameStats] is reached by no call, so the stored list stays empty
    even after a win. *)
Theorem stats_never_stored `{engine : ArraySort}
    (evs : list Event) (level : string) (answers : list bool) :
  memoryGameStats (run evs (DOMContentLoaded level answers)) = [].
Proof.
  apply (reachable_invariant (fun w => memoryGameStats w = [])).
  - intros l. reflexivity.
  - apply @memoryGameStats_empty_step.
Qed.

(** ** The clock *)

Lemma earliest_In `{engine : ArraySort} ts t : earliest ts = Some t -> In t ts.
Proof.
  revert t; induction ts as [|t0 ts IH]; intros t; simpl; [discriminate|].
  destruct (earliest ts) as [t'|].
  - destruct (Nat.leb (due t0) (due t')); intros [= <-]; [left; reflexivity|].
    right. apply IH. reflexivity.
  - intros [= <-]. left. reflexivity.
Qed.

Lemma isTick_spec t : isTick t = true <-> callback t = CallTick.
Proof. unfold isTick. destruct (callback t); split; congruence. Qed.

Lemma filter_length_le {A} (p : A -> bool) (l : list A) :
  length (List.filter p l) <= length l.
Proof. induction l as [|x l IH]; simpl; [lia|]. destruct (p x); simpl; lia. Qed.

Lemma filter_filter_length {A} (p q : A -> bool) (l : list A) :
  length (List.filter q (List.filter p l)) <= length (List.filter q l).
Proof.
  induction l as [|x l IH]; simpl; [lia|].
  destruct (p x), (q x) eqn:Eq; simpl; rewrite ?Eq; simpl; lia.
Qed.

Lemma clockSane_ext w w' :
  timers w' = timers w -> timer w' = timer w -> seconds w' = seconds w ->
  now w <= now w' -> clockSane w -> clockSane w'.
Proof.
  unfold clockSane. intros -> -> -> Hnow (HA & HB & HE).
  split; [exact HA|]. split; [exact HB | lia].
Qed.

Lemma clockSane_removal w w' p :
  timers w' = List.filter p (timers w) -> timer w' = timer w -> seconds w' = seconds w ->
  now w <= now w' -> clockSane w -> clockSane w'.
Proof.
  unfold clockSane. intros -> -> -> Hnow (HA & HB & HE).
  split; [|split; [|lia]].
  - intros t Hin. apply filter_In in Hin. apply HA, Hin.
  - pose proof (filter_filter_length p isTick (timers w)). lia.
Qed.

Lemma clockSane_setTimeout cb delay w :
  cb <> CallTick -> clockSane w -> clockSane (setTimeout cb delay w).
Proof.
  unfold clockSane. intros Hcb (HA & HB & HE). destruct w; simpl in *.
  split; [|split; [|exact HE]].
  - intros t Hin. apply in_app_or in Hin. destruct Hin as [Hin | [<- | []]].
    + apply HA, Hin.
    + simpl. intros [Htick | Hevery]; congruence.
  - rewrite List.filter_app, length_app. simpl. unfold isTick at 2. simpl.
    destruct cb; simpl; try lia. congruence.
Qed.

Lemma clockSane_clearInterval h w : clockSane w -> clockSane (clearInterval h w).
Proof.
  destruct h as [h|]; [|exact (fun H => H)].
  apply (clockSane_removal w _ (fun t => negb (Nat.eqb (handle t) h)));
    destruct w; simpl; try reflexivity; lia.
Qed.

Section Clock.
Context `{engine : ArraySort}.

Lemma clockSane_handleCardClick c s w : clockSane w -> clockSane (handleCardClick c s w).
Proof.
intros Hw. apply handleCardClick_cases.
- intros _. exact Hw.
- intros _. split; intros _.
  + revert Hw. apply clockSane_ext; destruct w; simpl; try reflexivity; lia.
  + apply clockSane_setTimeout; [discriminate|].
    revert Hw. apply clockSane_ext; destruct w; simpl; try reflexivity; lia.
Qed.

Lemma clockSane_checkMatch w : clockSane w -> clockSane (settle (checkMatch w)).
Proof.
intros Hw. apply checkMatch_cases; [intros _ _; exact Hw|].
intros card1 card2 rest _. apply clockSane_setTimeout; [discriminate|].
destruct (String.eqb (Selected.symbol card1) (Selected.symbol card2)).
- revert Hw. apply clockSane_ext; destruct w; simpl; try reflexivity; lia.
- apply (clockSane_ext (handleMismatch card1 card2 w));
    try (destruct w; simpl; try reflexivity; lia).
  apply clockSane_setTimeout; [discriminate|].
  revert Hw. apply clockSane_ext; destruct w; simpl; try reflexivity; lia.
Qed.

Lemma clockSane_checkGameOver w : clockSane w -> clockSane (checkGameOver w).
Proof.
intros Hw. unfold checkGameOver.
destruct (Nat.eqb (length (remainingCards w)) 0); [|exact Hw].
apply (clockSane_ext (clearInterval (timer w) w));
  try (destruct w as [? ? [h|] ? ? ? ? ? ? ? ? ? ? ? ? ? ? ?]; simpl; try reflexivity; lia).
apply clockSane_clearInterval, Hw.
Qed.

Lemma clockSane_runCallback cb w :
cb <> CallTick -> clockSane w -> clockSane (runCallback cb w).
Proof.
intros Hcb Hw. destruct cb; simpl; try congruence.
- apply clockSane_checkMatch, Hw.
- apply clockSane_checkGameOver.
  revert Hw. apply clockSane_ext; destruct w; simpl; try reflexivity; lia.
- revert Hw. apply clockSane_ext; destruct w; simpl; try reflexivity; lia.
- revert Hw. apply clockSane_ext; destruct w; simpl; try reflexivity; lia.
Qed.

End Clock.

Lemma filter_none {A} (p : A -> bool) (l : list A) :
  (forall x, In x l -> p x = false) -> List.filter p l = [].
Proof.
  induction l as [|x l IH]; intros Hall; simpl; [reflexivity|].
  rewrite (Hall x) by (left; reflexivity). apply IH.
  intros y Hy. apply Hall. right. exact Hy.
Qed.

(** The table after the clock has been set anew: what is kept of the old
    table holds no clock, and one interval is appended. *)
Lemma clockSane_one_tick w w' base h' d :
  clockSane w ->
  (forall t, In t base -> In t (timers w) /\ timer w <> Some (handle t)) ->
  timers w' = base ++ [{| handle := h'; due := d; callback := CallTick; every := Some 1000 |}] ->
  timer w' = Some h' ->
  (seconds w' + 1) * 1000 <= d ->
  seconds w' * 1000 <= now w' ->
  clockSane w'.
Proof.
  intros (HA & _ & _) Hbase Htimers Htimer Hdue Hnow.
  assert (Hplain : forall t, In t base -> callback t <> CallTick /\ every t = None).
  { intros t Hin. destruct (Hbase t Hin) as [Hold Hhandle].
    split.
    - intros Htick. destruct (HA t Hold (or_introl Htick)) as (_ & _ & Hown & _). congruence.
    - destruct (every t) eqn:E; [|reflexivity].
      destruct (HA t Hold) as (_ & _ & Hown & _); [right; congruence | congruence]. }
  unfold clockSane. rewrite Htimers, Htimer.
  split; [|split; [|exact Hnow]].
  - intros t Hin. apply in_app_or in Hin. destruct Hin as [Hin | [<- | []]].
    + destruct (Hplain t Hin) as [Hcb Hev]. intros [Htick | Hevery]; congruence.
    + intros _. simpl. repeat split. exact Hdue.
  - rewrite List.filter_app, length_app, (filter_none isTick base); [simpl; lia|].
    intros t Hin. destruct (Hplain t Hin) as [Hcb _].
    destruct (isTick t) eqn:E; [|reflexivity]. apply isTick_spec in E. congruence.
Qed.

Lemma fold_runFrame_invariant `{engine : ArraySort} (P : World -> Prop) :
  (forall cb w, P w -> P (runFrame cb w)) ->
  forall cbs w, P w -> P (fold_left (fun w cb => runFrame cb w) cbs w).
Proof.
  intros Hframe cbs. induction cbs as [|cb cbs IH]; intros w HP; simpl; [exact HP|].
  apply IH, Hframe, HP.
Qed.

Section ClockSteps.
Context `{engine : ArraySort}.

Lemma clockSane_startGame answers w : clockSane w -> clockSane (settle (startGame answers w)).
Proof.
intros Hw. destruct (startGame_resets answers w) as (_ & _ & _ & _ & _ & Hnow & _).
destruct (getDimensions (levelSelect w)) as [rows cols|name] eqn:Hdim.
- destruct (startGame_deals answers w rows cols Hdim)
    as (_ & _ & _ & Hsec & _ & Htimer & Htimers).
  eapply (clockSane_one_tick w); [exact Hw | | exact Htimers | exact Htimer | |].
  + intros t Hin. destruct (timer w) as [h|]; [|split; [exact Hin | discriminate]].
    apply filter_In in Hin. destruct Hin as [Hin Hh]. split; [exact Hin|].
    intros [= ->]. rewrite Nat.eqb_refl in Hh. discriminate.
  + rewrite Hsec. lia.
  + rewrite Hsec. lia.
- destruct (startGame_throws answers w name Hdim) as (_ & _ & _ & Hsec & _ & Htimer & Htimers).
  revert Hw. apply clockSane_ext; try assumption. lia.
Qed.

Lemma clockSane_wait dt w : clockSane w -> clockSane (wait dt w).
Proof.
unfold wait. destruct (earliest (timers w));
  apply clockSane_ext; destruct w; simpl; try reflexivity; lia.
Qed.

Lemma clockSane_paint w : clockSane w -> clockSane (paint w).
Proof.
intros Hw. unfold paint. apply fold_runFrame_invariant.
- intros [card1 card2] w' Hw'. apply clockSane_setTimeout; [discriminate | exact Hw'].
- revert Hw. apply clockSane_ext; destruct w; simpl; try reflexivity; lia.
Qed.

Lemma clockSane_fire w : clockSane w -> clockSane (fire w).
Proof.
intros Hw. unfold fire. destruct (earliest (timers w)) as [t|] eqn:Ht; [|exact Hw].
apply earliest_In in Ht.
destruct (isTick t) eqn:Htick.
- apply isTick_spec in Htick.
  destruct Hw as (HA & HB & HE).
  destruct (HA t Ht (or_introl Htick)) as (_ & Hev & Hown & Hdue).
  rewrite Htick, Hev. simpl.
  eapply (clockSane_one_tick w _
            (List.filter (fun t' => negb (Nat.eqb (handle t') (handle t))) (timers w))
            (handle t) (due t + 1000)).
  + split; [exact HA|]. split; [exact HB | exact HE].
  + intros t' Hin. apply filter_In in Hin. destruct Hin as [Hin Hh]. split; [exact Hin|].
    rewrite Hown. intros [= E]. rewrite E, Nat.eqb_refl in Hh. discriminate.
  + destruct w; reflexivity.
  + destruct w; simpl in *. exact Hown.
  + destruct w; simpl in *. lia.
  + destruct w; simpl in *. lia.
- assert (Hcb : callback t <> CallTick).
  { intros E. apply isTick_spec in E. congruence. }
  assert (Hev : every t = None).
  { destruct (every t) eqn:E; [|reflexivity].
    destruct Hw as (HA & _). destruct (HA t Ht) as (Hc & _); [right; congruence | congruence]. }
  rewrite Hev. apply clockSane_runCallback; [exact Hcb|].
  apply (clockSane_removal w _ (fun t' => negb (Nat.eqb (handle t') (handle t))));
    try (destruct w; simpl; try reflexivity; lia). exact Hw.
Qed.

Lemma clockSane_step w ev : clockSane w -> clockSane (step w ev).
Proof.
revert w ev. apply step_preserves.
- intros c s w. apply clockSane_handleCardClick.
- intros answers level w Hw. apply clockSane_startGame.
  revert Hw. apply clockSane_ext; destruct w; simpl; try reflexivity; lia.
- intros answers w. apply clockSane_startGame.
- apply clockSane_wait.
- apply clockSane_fire.
- apply clockSane_paint.
Qed.

End ClockSteps.


(** X4.  After every run of events, restarts included, the timer table
    holds at most one ticking entry; the entries that tick or repeat are the
    1000 ms interval whose handle is in [this.timer]; and the seconds
    counted never exceed the milliseconds that have passed. *)
Theorem clock_runs_once `{engine : ArraySort}
    (evs : list Event) (level : string) (answers : list bool) :
  let w := run evs (DOMContentLoaded level answers) in
  length (List.filter isTick (timers w)) <= 1
  /\ (forall t, In t (timers w) -> isTick t = true \/ every t <> None ->
        isTick t = true /\ every t = Some 1000 /\ timer w = Some (handle t))
  /\ seconds w * 1000 <= now w.
Proof.
  intros w.
  assert (Hsane : clockSane w).
  { apply (reachable_invariant clockSane); [|apply @clockSane_step].
    intros l. split; [intros t []|]. split; simpl; lia. }
  destruct Hsane as (HA & HB & HE).
  split; [exact HB|]. split; [|exact HE].
  intros t Hin Hkind.
  destruct (HA t Hin) as (Hcb & Hev & Hown & _).
  { destruct Hkind as [Htick | Hev]; [left; apply isTick_spec, Htick | right; exact Hev]. }
  split; [apply isTick_spec, Hcb|]. split; assumption.
Qed.

(** ** The clock once the game is won *)

Lemma noClock_setTimeout cb delay w :
  cb <> CallTick -> noClock w -> noClock (setTimeout cb delay w).
Proof.
  unfold noClock. intros Hcb Hw t Hin. destruct w; simpl in *.
  apply in_app_or in Hin. destruct Hin as [Hin | [<- | []]]; [apply Hw, Hin|].
  simpl. split; [exact Hcb | reflexivity].
Qed.

Lemma noClock_ext w w' :
  (forall t, In t (timers w') -> In t (timers w)) -> noClock w -> noClock w'.
Proof. unfold noClock. intros Hsub Hw t Hin. apply Hw, Hsub, Hin. Qed.

Lemma noClock_clearInterval w : clockSane w -> noClock (clearInterval (timer w) w).
Proof.
  intros (HA & _ & _) t Hin.
  assert (Hold : In t (timers w) /\ timer w <> Some (handle t)).
  { destruct w as [? ? [h|] ? ? ? ? ? ? ? ? ? ? ? ? ? ? ?]; simpl in *.
    - apply filter_In in Hin. destruct Hin as [Hin Hh]. split; [exact Hin|].
      intros [= ->]. rewrite Nat.eqb_refl in Hh. discriminate.
    - split; [exact Hin | discriminate]. }
  destruct Hold as [Hold Hown]. split.
  - intros Htick. destruct (HA t Hold (or_introl Htick)) as (_ & _ & E & _). congruence.
  - destruct (every t) eqn:E; [|reflexivity].
    destruct (HA t Hold) as (_ & _ & E' & _); [right; congruence | congruence].
Qed.

Lemma frozenAt_ext s w w' :
  (forall t, In t (timers w') -> In t (timers w)) ->
  seconds w' = seconds w -> message w' = message w ->
  frozenAt s w -> frozenAt s w'.
Proof.
  intros Hsub Hsec Hmsg (Hclock & Hs & Hm). split; [|split; congruence].
  revert Hclock. apply noClock_ext, Hsub.
Qed.

Lemma frozenAt_setTimeout s cb delay w :
  cb <> CallTick -> frozenAt s w -> frozenAt s (setTimeout cb delay w).
Proof.
  intros Hcb (Hclock & Hs & Hm). split; [apply noClock_setTimeout; assumption|].
  destruct w; split; assumption.
Qed.

Ltac same_table :=
  match goal with
  | |- forall t, In t _ -> In t _ =>
      let w := fresh in let t := fresh in let H := fresh in
      intros t H;
      repeat match goal with w : World |- _ => destruct w end;
      simpl in *;
      first [ exact H
            | apply filter_In in H; apply H ]
  | |- _ = _ =>
      repeat match goal with w : World |- _ => destruct w end; reflexivity
  end.

Section Frozen.
Context `{engine : ArraySort}.

Lemma frozenAt_runCallback s cb w :
cb <> CallTick -> frozenAt s w -> frozenAt s (runCallback cb w).
Proof.
intros Hcb Hw. destruct cb; simpl; try congruence.
- apply checkMatch_cases; [intros _ _; exact Hw|].
  intros card1 card2 rest _. apply frozenAt_setTimeout; [discriminate|].
  destruct (String.eqb (Selected.symbol card1) (Selected.symbol card2)).
  + revert Hw. apply frozenAt_ext; same_table.
  + apply (frozenAt_ext s (handleMismatch card1 card2 w)); try same_table.
    apply frozenAt_setTimeout; [discriminate|].
    revert Hw. apply frozenAt_ext; same_table.
- unfold checkGameOver.
  destruct (Nat.eqb (length (remainingCards (set_allowClick true w))) 0).
  + destruct Hw as (Hclock & Hs & Hm). split; [|split].
    * intros t Hin. apply Hclock.
      destruct w as [? ? [h|] ? ? ? ? ? ? ? ? ? ? ? ? ? ? ?]; simpl in *;
        [apply filter_In in Hin; apply Hin | exact Hin].
    * destruct w as [? ? [h|] ? ? ? ? ? ? ? ? ? ? ? ? ? ? ?]; exact Hs.
    * destruct w as [? ? [h|] ? ? ? ? ? ? ? ? ? ? ? ? ? ? ?]; reflexivity.
  + revert Hw. apply frozenAt_ext; same_table.
- revert Hw. apply frozenAt_ext; same_table.
- revert Hw. apply frozenAt_ext; same_table.
Qed.

Lemma frozenAt_step s w ev :
frozenAt s w -> restarting w ev = false -> frozenAt s (step w ev).
Proof.
intros Hw Hev. destruct ev as [i|level answers|answers|dt| |]; simpl in *.
- unfold clickCard. destruct (gameBoard w !! i) as [c|]; [|exact Hw].
  destruct (cards w !! c) as [e|]; [|exact Hw].
  apply handleCardClick_cases; [intros _; exact Hw|].
  intros _. split; intros _.
  + revert Hw. apply frozenAt_ext; same_table.
  + apply frozenAt_setTimeout; [discriminate|].
    revert Hw. apply frozenAt_ext; same_table.
- discriminate.
- rewrite Hev. exact Hw.
- unfold wait. destruct (earliest (timers w)); revert Hw; apply frozenAt_ext; same_table.
- unfold fire. destruct (earliest (timers w)) as [t|] eqn:Ht; [|exact Hw].
  apply earliest_In in Ht. destruct (proj1 Hw t Ht) as [Hcb Hevery].
  rewrite Hevery. apply frozenAt_runCallback; [exact Hcb|].
  revert Hw. apply frozenAt_ext; same_table.
- unfold paint. apply fold_runFrame_invariant.
  + intros [card1 card2] w' Hw'. apply frozenAt_setTimeout; [discriminate | exact Hw'].
  + revert Hw. apply frozenAt_ext; same_table.
Qed.

Lemma frozenAt_run s evs w :
frozenAt s w -> countAlong restarting evs w = 0 -> frozenAt s (run evs w).
Proof.
revert w; induction evs as [|ev evs IH]; intros w Hw Hcount; simpl in *; [exact Hw|].
destruct (restarting w ev) eqn:Hev; [discriminate|].
apply IH; [apply frozenAt_step; assumption | exact Hcount].
Qed.

End Frozen.

Lemma message_handleCardClick c s w : message (handleCardClick c s w) = message w.
Proof.
  apply handleCardClick_cases; [reflexivity|].
  intros _. split; intros _; destruct w; reflexivity.
Qed.

Section Shown.
Context `{engine : ArraySort}.

Lemma message_runCallback cb w :
cb <> CallUnlock -> message (runCallback cb w) = message w.
Proof.
intros Hcb. destruct cb; simpl; try congruence; try (destruct w; reflexivity).
apply checkMatch_cases; [reflexivity|].
intros card1 card2 rest _.
destruct (String.eqb (Selected.symbol card1) (Selected.symbol card2));
  destruct w; reflexivity.
Qed.

Lemma shown_step w ev :
clockSane w -> (message w = true -> noClock w) ->
message (step w ev) = true -> noClock (step w ev).
Proof.
intros Hsane Hshown Hafter.
destruct (restarting w ev) eqn:Hev.
- exfalso. destruct ev as [i|level answers|answers|dt| |]; simpl in *; try discriminate.
  + destruct (startGame_resets answers (set_levelSelect level w)) as (_ & _ & Hm & _).
    congruence.
  + rewrite Hev in Hafter.
    destruct (startGame_resets answers w) as (_ & _ & Hm & _). congruence.
- destruct (message w) eqn:Hm.
  + apply (frozenAt_step (seconds w) w ev); [|exact Hev].
    split; [apply Hshown; reflexivity | split; [reflexivity | exact Hm]].
  + destruct ev as [i|level answers|answers|dt| |]; simpl in *; try discriminate.
    * exfalso. revert Hafter. unfold clickCard.
      destruct (gameBoard w !! i) as [c|]; [|congruence].
      destruct (cards w !! c) as [e|]; [|congruence].
      rewrite message_handleCardClick. congruence.
    * exfalso. rewrite Hev in Hafter. congruence.
    * exfalso. revert Hafter. unfold wait.
      destruct (earliest (timers w)); destruct w; simpl in *; congruence.
    * revert Hafter. unfold fire.
      destruct (earliest (timers w)) as [t|] eqn:Ht; [|congruence].
      apply earliest_In in Ht.
      destruct (isUnlock t) eqn:Hun.
      -- unfold isUnlock in Hun. destruct (callback t) eqn:Hcb; try discriminate.
         assert (Hevery : every t = None).
         { destruct (every t) eqn:E; [|reflexivity].
           destruct Hsane as (HA & _).
           destruct (HA t Ht) as (Hc & _); [right; congruence | congruence]. }
         rewrite Hevery. simpl. unfold checkGameOver.
         match goal with |- context [remainingCards ?x] => set (w2 := x) end.
         assert (Hsane2 : clockSane w2).
         { apply (clockSane_removal w _ (fun t' => negb (Nat.eqb (handle t') (handle t))));
             subst w2; try (destruct w; simpl; try reflexivity; lia). exact Hsane. }
         destruct (Nat.eqb (length (remainingCards w2)) 0).
         ++ intros _. apply (noClock_ext (clearInterval (timer w2) w2)).
            ** destruct w2 as [? ? [h|] ? ? ? ? ? ? ? ? ? ? ? ? ? ? ?]; intros t' Ht'; exact Ht'.
            ** apply noClock_clearInterval, Hsane2.
         ++ intros Hafter. exfalso. subst w2. destruct w; simpl in *. congruence.
      -- intros Hafter. exfalso. revert Hafter.
         rewrite message_runCallback
           by (unfold isUnlock in Hun; destruct (callback t); congruence).
         destruct w; simpl in *. congruence.
    * exfalso. revert Hafter. unfold paint.
      rewrite fold_runFrame_preserves by (intros [] w'; destruct w'; reflexivity).
      destruct w; simpl in *. congruence.
Qed.

End Shown.

(** X5.  Whenever the win message is showing, the clock has been taken
    down: as long as no new game is started, whatever is clicked and
    whichever callbacks still run, the seconds keep their value, the message
    stays, and no ticking entry comes back into the timer table. *)
Theorem time_frozen_while_won `{engine : ArraySort}
    (evs evs' : list Event) (level : string) (answers : list bool) :
  let w := run evs (DOMContentLoaded level answers) in
  message w = true ->
  countAlong restarting evs' w = 0 ->
  seconds (run evs' w) = seconds w
  /\ message (run evs' w) = true
  /\ List.filter isTick (timers (run evs' w)) = [].
Proof.
  intros w Hwon Hsame.
  assert (Hinv : clockSane w /\ (message w = true -> noClock w)).
  { apply (reachable_invariant (fun w => clockSane w /\ (message w = true -> noClock w))).
    - intros l. split; [|discriminate].
      split; [intros t []|]. split; simpl; lia.
    - intros w0 ev [Hsane Hshown]. split; [apply clockSane_step, Hsane|].
      apply shown_step; assumption. }
  destruct Hinv as [_ Hshown].
  destruct (frozenAt_run (seconds w) evs' w) as (Hclock & Hsec & Hmsg);
    [split; [apply Hshown, Hwon | split; [reflexivity | exact Hwon]] | exact Hsame |].
  split; [exact Hsec|]. split; [exact Hmsg|].
  apply filter_none. intros t Hin. destruct (Hclock t Hin) as [Hcb _].
  destruct (isTick t) eqn:E; [|reflexivity]. apply isTick_spec in E. congruence.
Qed.

Lemma time_frozen_while_won_witness :
  let w := run (bothPairsMatched ++ [Fire]) boot2x2 in
  message w = true
  /\ seconds (run [Wait 5000; Click 1; Fire; Paint; Wait 700] w) = seconds w.
Proof.
  split; [reflexivity|].
  exact (proj1 (@time_frozen_while_won insertionSort (bothPairsMatched ++ [Fire])
                  [Wait 5000; Click 1; Fire; Paint; Wait 700] LEVELS.EASY []
                  eq_refl eq_refl)).
Defined.

(** ** One game, from its start to the next *)

Lemma sessionPhase_ext n w w' :
  allowClick w' = allowClick w -> selectedCards w' = selectedCards w ->
  turns w' = turns w -> pendingUnlocks w' <= pendingUnlocks w ->
  sessionPhase n w -> sessionPhase n w'.
Proof.
  unfold sessionPhase. intros -> -> -> Hle [H | [H | H]]; [left | right; left | right; right];
    repeat split; try apply H; destruct H as (_ & _ & Hu & _); lia.
Qed.

Lemma pendingUnlocks_setTimeout cb delay w :
  pendingUnlocks (setTimeout cb delay w)
  = pendingUnlocks w + (if isUnlock {| handle := 0; due := 0; callback := cb; every := None |}
                        then 1 else 0).
Proof.
  unfold pendingUnlocks. destruct w; simpl.
  rewrite List.filter_app, length_app. simpl. unfold isUnlock at 2 3. simpl.
  destruct cb; reflexivity.
Qed.

Ltac same_fields :=
  repeat match goal with w : World |- _ => destruct w end; simpl in *;
  first [ reflexivity
        | unfold pendingUnlocks; simpl; apply filter_filter_length
        | unfold pendingUnlocks; simpl; lia ].

Section Session.
Context `{engine : ArraySort}.

Lemma sessionPhase_click n c s w :
sessionPhase n w ->
sessionPhase (n + (if accepts c w then 1 else 0)) (handleCardClick c s w).
Proof.
intros Hphase. destruct (accepts c w) eqn:Hacc.
- rewrite (handleCardClick_accepted _ _ _ Hacc).
  assert (Hopen : allowClick w = true).
  { unfold accepts in Hacc. destruct (cards w !! c); [|discriminate].
    destruct (allowClick w); [reflexivity | discriminate]. }
  destruct Hphase as [(_ & Hlen & Hu & Hn) | [(Hlock & _) | (Hlock & _)]]; try congruence.
  simpl. destruct (Nat.eqb (length (selectedCards w)) 1) eqn:E.
  + apply Nat.eqb_eq in E. right; left.
    unfold pendingUnlocks in *. destruct w; simpl in *.
    rewrite List.filter_app, !length_app. simpl.
    repeat split; first [assumption | reflexivity | lia].
  + apply Nat.eqb_neq in E. left.
    unfold pendingUnlocks in *. destruct w; simpl in *.
    rewrite !length_app. simpl.
    repeat split; first [assumption | reflexivity | lia].
- rewrite (handleCardClick_rejected _ _ _ Hacc), Nat.add_0_r. exact Hphase.
Qed.

Lemma sessionPhase_runCallback n cb w :
(isUnlock {| handle := 0; due := 0; callback := cb; every := None |} = true ->
 S (pendingUnlocks w) <= 1 /\ allowClick w = false /\ selectedCards w = [] /\ n = 2 * turns w) ->
sessionPhase n w -> sessionPhase n (runCallback cb w).
Proof.
intros Hunlock Hphase. destruct cb; simpl.
- apply checkMatch_cases; [intros _ _; exact Hphase|].
  intros card1 card2 rest Hsel.
  destruct Hphase as [(_ & Hlen & _) | [(Hlock & _ & Hu & Hn) | (_ & Hnil & _)]].
  + rewrite Hsel in Hlen. simpl in Hlen. lia.
  + right; right. rewrite pendingUnlocks_setTimeout. simpl.
    destruct (String.eqb (Selected.symbol card1) (Selected.symbol card2)).
    * unfold pendingUnlocks in *. destruct w; simpl in *. repeat split; try assumption; lia.
    * unfold pendingUnlocks in *. destruct w; simpl in *.
      rewrite List.filter_app, length_app. simpl. repeat split; try assumption; lia.
  + rewrite Hsel in Hnil. discriminate.
- destruct (Hunlock eq_refl) as (Hu & Hlock & Hnil & Hn).
  left. destruct (checkGameOver_fields (set_allowClick true w)) as (-> & -> & _).
  assert (Hturns : turns (checkGameOver (set_allowClick true w)) = turns w).
  { unfold checkGameOver.
    destruct (Nat.eqb (length (remainingCards (set_allowClick true w))) 0);
      destruct w as [? ? [h|] ? ? ? ? ? ? ? ? ? ? ? ? ? ? ?]; reflexivity. }
  assert (Hpending : pendingUnlocks (checkGameOver (set_allowClick true w)) <= pendingUnlocks w).
  { unfold checkGameOver, pendingUnlocks.
    destruct (Nat.eqb (length (remainingCards (set_allowClick true w))) 0);
      destruct w as [? ? [h|] ? ? ? ? ? ? ? ? ? ? ? ? ? ? ?]; simpl;
      try apply filter_filter_length; lia. }
  assert (Hsel' : selectedCards (set_allowClick true w) = selectedCards w)
    by (destruct w; reflexivity).
  assert (Hallow' : allowClick (set_allowClick true w) = true) by (destruct w; reflexivity).
  rewrite Hsel', Hallow', Hturns, Hnil. simpl. repeat split; lia.
- revert Hphase. apply sessionPhase_ext; same_fields.
- revert Hphase. apply sessionPhase_ext; same_fields.
- revert Hphase. apply sessionPhase_ext; same_fields.
Qed.

End Session.

Lemma filter_filter_drops {A} (p q : A -> bool) (l : list A) (x : A) :
  In x l -> p x = true -> q x = false ->
  length (List.filter p (List.filter q l)) < length (List.filter p l).
Proof.
  induction l as [|y l IH]; intros Hin Hp Hq; [destruct Hin|].
  destruct Hin as [-> | Hin]; simpl.
  - rewrite Hq, Hp. simpl. pose proof (filter_filter_length q p l). lia.
  - specialize (IH Hin Hp Hq).
    destruct (q y), (p y) eqn:Ep; simpl; rewrite ?Ep; simpl; lia.
Qed.

Section SessionSteps.
Context `{engine : ArraySort}.

Lemma sessionPhase_fire n w : clockSane w -> sessionPhase n w -> sessionPhase n (fire w).
Proof.
intros (HA & _ & _) Hphase. unfold fire.
destruct (earliest (timers w)) as [t|] eqn:Ht; [|exact Hphase].
apply earliest_In in Ht.
set (others := List.filter (fun t' => negb (Nat.eqb (handle t') (handle t))) (timers w)).
destruct (isTick t) eqn:Htick.
- apply isTick_spec in Htick.
  destruct (HA t Ht (or_introl Htick)) as (_ & Hev & _).
  rewrite Htick, Hev. simpl.
  revert Hphase. apply sessionPhase_ext; try same_fields.
  unfold pendingUnlocks. destruct w; simpl in *.
  rewrite List.filter_app, length_app. simpl.
  pose proof (filter_filter_length (fun t' => negb (Nat.eqb (handle t') (handle t)))
                isUnlock timers0). fold others. subst others. lia.
- assert (Hcb : callback t <> CallTick)
    by (intros E; apply isTick_spec in E; congruence).
  assert (Hev : every t = None).
  { destruct (every t) eqn:E; [|reflexivity].
    destruct (HA t Ht) as (Hc & _); [right; congruence | congruence]. }
  rewrite Hev.
  match goal with |- sessionPhase n (runCallback _ ?x) => set (w1 := x) end.
  assert (Hfields : allowClick w1 = allowClick w /\ selectedCards w1 = selectedCards w
                    /\ turns w1 = turns w
                    /\ pendingUnlocks w1 = length (List.filter isUnlock others)).
  { subst w1. destruct w; repeat split. }
  destruct Hfields as (Hallow & Hsel & Hturns & Hpend).
  apply sessionPhase_runCallback.
  + intros Hun.
    assert (Hunlock : isUnlock t = true).
    { unfold isUnlock in *. simpl in Hun. exact Hun. }
    pose proof (filter_filter_drops isUnlock
                  (fun t' => negb (Nat.eqb (handle t') (handle t))) (timers w) t Ht Hunlock) as Hdrop.
    assert (Hq : negb (Nat.eqb (handle t) (handle t)) = false)
      by (rewrite Nat.eqb_refl; reflexivity).
    specialize (Hdrop Hq). fold others in Hdrop.
    rewrite Hpend, Hallow, Hsel, Hturns.
    unfold sessionPhase, pendingUnlocks in Hphase.
    destruct Hphase as [(_ & _ & Hu & _) | [(_ & _ & Hu & _) | (Hlock & Hnil & Hu & Hn)]];
      try lia.
    repeat split; try assumption. lia.
  + revert Hphase. apply sessionPhase_ext; try assumption.
    rewrite Hpend. unfold pendingUnlocks. apply filter_filter_length.
Qed.

Lemma sessionPhase_step n w ev :
clockSane w -> sessionPhase n w -> restarting w ev = false ->
sessionPhase (n + (if acceptedFlip w ev then 1 else 0)) (step w ev).
Proof.
intros Hsane Hphase Hev.
destruct ev as [i|level answers|answers|dt| |]; simpl in *; try discriminate;
  rewrite ?Nat.add_0_r.
- unfold clickCard. destruct (gameBoard w !! i) as [c|]; [|rewrite Nat.add_0_r; exact Hphase].
  destruct (cards w !! c) as [e|] eqn:Hc.
  + apply sessionPhase_click, Hphase.
  + unfold accepts. rewrite Hc, Nat.add_0_r. exact Hphase.
- rewrite Hev. exact Hphase.
- unfold wait. destruct (earliest (timers w));
    revert Hphase; apply sessionPhase_ext; same_fields.
- apply sessionPhase_fire; assumption.
- unfold paint. apply fold_runFrame_invariant.
  + intros [card1 card2] w' Hw'. revert Hw'. apply sessionPhase_ext; try same_fields.
    unfold runFrame. rewrite pendingUnlocks_setTimeout. simpl. lia.
  + revert Hphase. apply sessionPhase_ext; same_fields.
Qed.

Lemma sessionPhase_run evs : forall n w,
clockSane w -> sessionPhase n w -> countAlong restarting evs w = 0 ->
sessionPhase (n + countAlong acceptedFlip evs w) (run evs w).
Proof.
induction evs as [|ev evs IH]; intros n w Hsane Hphase Hcount; simpl in *.
- rewrite Nat.add_0_r. exact Hphase.
- destruct (restarting w ev) eqn:Hev; [discriminate|].
  rewrite Nat.add_assoc. apply IH.
  + apply clockSane_step, Hsane.
  + apply sessionPhase_step; assumption.
  + exact Hcount.
Qed.

Lemma sessionPhase_boot level answers : sessionPhase 0 (DOMContentLoaded level answers).
Proof.
left. unfold DOMContentLoaded.
destruct (startGame_fields answers (constructor level)) as (-> & -> & _).
destruct (startGame_resets answers (constructor level)) as (-> & _).
split; [reflexivity|]. split; [simpl; lia|]. split; [|reflexivity].
unfold pendingUnlocks.
destruct (getDimensions (levelSelect (constructor level))) as [rows cols|name] eqn:Hdim.
- destruct (startGame_deals answers _ rows cols Hdim) as (_ & _ & _ & _ & _ & _ & ->).
  reflexivity.
- destruct (startGame_throws answers _ name Hdim) as (_ & _ & _ & _ & _ & _ & ->).
  reflexivity.
Qed.

End SessionSteps.

Lemma clockSane_boot `{engine : ArraySort} level answers :
  clockSane (DOMContentLoaded level answers).
Proof.
  change (clockSane (run [] (DOMContentLoaded level answers))).
  apply (reachable_invariant clockSane); [|apply @clockSane_step].
  intros l. split; [intros t []|]. split; simpl; lia.
Qed.

(** X6.  From the loading of the page until a new game is started, never
    more than two cards are selected; while input is open at most one is,
    and whenever two are selected input is locked. *)
Theorem selection_bounded_within_game `{engine : ArraySort}
    (evs : list Event) (level : string) (answers : list bool) :
  countAlong restarting evs (DOMContentLoaded level answers) = 0 ->
  let w := run evs (DOMContentLoaded level answers) in
  length (selectedCards w) <= 2
  /\ (allowClick w = true -> length (selectedCards w) <= 1)
  /\ (length (selectedCards w) = 2 -> allowClick w = false).
Proof.
  intros Hsame w.
  pose proof (sessionPhase_run evs 0 _ (clockSane_boot level answers)
                (sessionPhase_boot level answers) Hsame) as Hphase.
  fold w in Hphase.
  destruct Hphase as [(Hopen & Hlen & _) | [(Hlock & Hlen & _) | (Hlock & Hnil & _)]].
  - split; [lia|]. split; [intros _; exact Hlen | intros E; lia].
  - split; [lia|]. split; [congruence | intros _; exact Hlock].
  - rewrite Hnil. simpl. split; [lia|]. split; [intros _; lia | intros E; lia].
Qed.

Lemma selection_bounded_within_game_witness :
  let w := run [Click 0; Click 1; Click 2; Fire; Click 3; Fire; Fire; Fire; Click 2; Click 3]
               boot2x2 in
  length (selectedCards w) <= 2.
Proof.
  exact (proj1 (@selection_bounded_within_game insertionSort
                  [Click 0; Click 1; Click 2; Fire; Click 3; Fire; Fire; Fire; Click 2; Click 3]
                  LEVELS.EASY [] eq_refl)).
Defined.

(** X7.  From the loading of the page until a new game is started, the turn
    counter is half the number of flips accepted, rounded down: every second
    accepted flip counts one turn, rejected clicks and callbacks count
    none. *)
Theorem turns_are_half_the_flips `{engine : ArraySort}
    (evs : list Event) (level : string) (answers : list bool) :
  countAlong restarting evs (DOMContentLoaded level answers) = 0 ->
  turns (run evs (DOMContentLoaded level answers))
  = countAlong acceptedFlip evs (DOMContentLoaded level answers) / 2.
Proof.
  intros Hsame.
  pose proof (sessionPhase_run evs 0 _ (clockSane_boot level answers)
                (sessionPhase_boot level answers) Hsame) as Hphase.
  simpl in Hphase.
  set (w := run evs (DOMContentLoaded level answers)) in *.
  set (flips := countAlong acceptedFlip evs (DOMContentLoaded level answers)) in *.
  assert (Hdiv : forall k r, r <= 1 -> flips = 2 * k + r -> k = flips / 2).
  { intros k r Hr ->. rewrite Nat.mul_comm, Nat.div_add_l by lia.
    rewrite (Nat.div_small r 2) by lia. lia. }
  destruct Hphase as [(_ & Hlen & _ & Hn) | [(_ & _ & _ & Hn) | (_ & _ & _ & Hn)]].
  - apply (Hdiv _ _ Hlen Hn).
  - apply (Hdiv _ 0); lia.
  - apply (Hdiv _ 0); lia.
Qed.

Lemma turns_are_half_the_flips_witness :
  turns (run [Click 0; Click 0; Click 1; Click 2; Fire; Fire; Fire; Fire; Click 3] boot2x2)
  = countAlong acceptedFlip
      [Click 0; Click 0; Click 1; Click 2; Fire; Fire; Fire; Fire; Click 3] boot2x2 / 2.
Proof.
  exact (@turns_are_half_the_flips insertionSort
           [Click 0; Click 0; Click 1; Click 2; Fire; Fire; Fire; Fire; Click 3]
           LEVELS.EASY [] eq_refl).
Defined.

(** ** The card elements over time *)

Lemma elementsKept_refl w : elementsKept w w.
Proof. intros c e Hc. exists e. repeat split; [exact Hc | tauto]. Qed.

Lemma elementsKept_trans w1 w2 w3 :
  elementsKept w1 w2 -> elementsKept w2 w3 -> elementsKept w1 w3.
Proof.
  intros H12 H23 c e Hc.
  destruct (H12 c e Hc) as (e2 & Hc2 & Hf2 & Hm2).
  destruct (H23 c e2 Hc2) as (e3 & Hc3 & Hf3 & Hm3).
  exists e3. split; [exact Hc3|]. split; [congruence | tauto].
Qed.

Lemma elementsKept_same w w' : cards w' = cards w -> elementsKept w w'.
Proof. intros E c e Hc. exists e. rewrite E. repeat split; [exact Hc | tauto]. Qed.

Lemma elementsKept_classList f card w :
  (forall e, front (f e) = front e /\ (matched e = true -> matched (f e) = true)) ->
  elementsKept w (classList f card w).
Proof.
  intros Hf c e Hc. destruct w; simpl in *.
  rewrite list_lookup_alter. case_decide.
  - subst. rewrite Hc. simpl. exists (f e). split; [reflexivity | apply Hf].
  - exists e. repeat split; [exact Hc | tauto].
Qed.

Lemma elementsKept_appended w w' extra :
  cards w' = cards w ++ extra -> elementsKept w w'.
Proof.
  intros E c e Hc. exists e. rewrite E.
  split; [apply lookup_app_l_Some, Hc | split; [reflexivity | tauto]].
Qed.

Ltac class_kept :=
  apply elementsKept_classList;
  let x := fresh "x" in intros x; destruct x; simpl; split; [reflexivity | tauto].

Section Elements.
Context `{engine : ArraySort}.

Lemma elementsKept_runCallback cb w : elementsKept w (runCallback cb w).
Proof.
destruct cb; simpl.
- apply checkMatch_cases; [intros _ _; apply elementsKept_refl|].
  intros card1 card2 rest _.
  destruct (String.eqb (Selected.symbol card1) (Selected.symbol card2)).
  + apply elementsKept_same. destruct w; reflexivity.
  + apply (elementsKept_trans _ (classList addShake (Selected.element card1) w));
      [class_kept|].
    apply (elementsKept_trans _ (classList addShake (Selected.element card2)
                                   (classList addShake (Selected.element card1) w)));
      [class_kept|].
    apply elementsKept_same. destruct w; reflexivity.
- apply elementsKept_same. unfold checkGameOver.
  destruct (Nat.eqb (length (remainingCards (set_allowClick true w))) 0);
    destruct w as [? ? [h|] ? ? ? ? ? ? ? ? ? ? ? ? ? ? ?]; reflexivity.
- apply (elementsKept_trans _ (classList addMatched card1 w)); [class_kept|].
  apply (elementsKept_trans _ (classList addMatched card2 (classList addMatched card1 w)));
    [class_kept|].
  apply elementsKept_same. destruct w; reflexivity.
- apply (elementsKept_trans _ (classList removeFlippedShake card1 w)); [class_kept|].
  apply (elementsKept_trans _ (classList removeFlippedShake card2
                                 (classList removeFlippedShake card1 w))); [class_kept|].
  apply elementsKept_same. destruct w; reflexivity.
- apply elementsKept_same. destruct w; reflexivity.
Qed.

Lemma elementsKept_startGame answers w : elementsKept w (settle (startGame answers w)).
Proof.
destruct (getDimensions (levelSelect w)) as [rows cols|name] eqn:Hdim.
- destruct (startGame_deals answers w rows cols Hdim) as (_ & Hcards & _).
  apply (elementsKept_appended _ _ _ Hcards).
- destruct (startGame_throws answers w name Hdim) as (_ & Hcards & _).
  apply elementsKept_same, Hcards.
Qed.

Lemma elementsKept_step w ev : elementsKept w (step w ev).
Proof.
destruct ev as [i|level answers|answers|dt| |]; simpl.
- unfold clickCard. destruct (gameBoard w !! i) as [c|]; [|apply elementsKept_refl].
  destruct (cards w !! c) as [e|]; [|apply elementsKept_refl].
  apply handleCardClick_cases; [intros _; apply elementsKept_refl|].
  intros _. split; intros _.
  + apply (elementsKept_trans _ (classList addFlipped c w)); [class_kept|].
    apply elementsKept_same. destruct w; reflexivity.
  + apply (elementsKept_trans _ (classList addFlipped c w)); [class_kept|].
    apply elementsKept_same. destruct w; reflexivity.
- apply (elementsKept_trans _ (set_levelSelect level w));
    [apply elementsKept_same; destruct w; reflexivity | apply elementsKept_startGame].
- destruct (message w); [apply elementsKept_startGame | apply elementsKept_refl].
- apply elementsKept_same. unfold wait. destruct (earliest (timers w)); destruct w; reflexivity.
- unfold fire. destruct (earliest (timers w)) as [t|]; [|apply elementsKept_refl].
  match goal with |- elementsKept w (runCallback _ ?x) =>
    apply (elementsKept_trans _ x);
      [apply elementsKept_same; destruct w; reflexivity | apply elementsKept_runCallback]
  end.
- apply elementsKept_same. unfold paint.
  rewrite fold_runFrame_preserves by (intros [] w'; destruct w'; reflexivity).
  destruct w; reflexivity.
Qed.

Lemma elementsKept_run evs w : elementsKept w (run evs w).
Proof.
revert w; induction evs as [|ev evs IH]; intros w; simpl; [apply elementsKept_refl|].
apply (elementsKept_trans _ (step w ev)); [apply elementsKept_step | apply IH].
Qed.

End Elements.

(** X8.  A card element is never removed and never changes the symbol it
    shows, whatever happens later, restarts included; once it carries the
    matched class it keeps it, and no click on it is accepted again. *)
Theorem matched_card_stays_matched `{engine : ArraySort}
    (evs : list Event) (w : World) (c : nat) (e : CardElement) :
  cards w !! c = Some e ->
  exists e', cards (run evs w) !! c = Some e'
    /\ front e' = front e
    /\ (matched e = true -> matched e' = true /\ accepts c (run evs w) = false).
Proof.
  intros Hc. destruct (elementsKept_run evs w c e Hc) as (e' & Hc' & Hfront & Hmatched).
  exists e'. split; [exact Hc'|]. split; [exact Hfront|].
  intros Hm. split; [apply Hmatched, Hm|].
  unfold accepts. rewrite Hc', (Hmatched Hm). apply andb_false_r.
Qed.

Lemma matched_card_stays_matched_witness :
  let w := run [Click 0; Click 2; Fire; Paint; Fire; Fire] boot2x2 in
  let later := [Fire; Fire; Click 0; ChangeLevel LEVELS.HARD [true]; Click 0; Fire] in
  exists e', cards (run later w) !! 0 = Some e'
    /\ front e' = "2" /\ matched e' = true /\ accepts 0 (run later w) = false.
Proof.
  destruct (@matched_card_stays_matched insertionSort
              [Fire; Fire; Click 0; ChangeLevel LEVELS.HARD [true]; Click 0; Fire]
              (run [Click 0; Click 2; Fire; Paint; Fire; Fire] boot2x2) 0
              {| front := "2"; flipped := true; matched := true; shake := false |} eq_refl)
    as (e' & Hc & Hfront & Hmatched).
  exists e'. split; [exact Hc|]. split; [exact Hfront|]. exact (Hmatched eq_refl).
Defined.

(** ** The level lookup, completely *)

Lemma getDimensions_inherited (level : string) :
  existsb (String.eqb level) objectPrototypeKeys = true ->
  getDimensions level = Inherited level.
Proof.
  unfold objectPrototypeKeys, existsb. intros Hin.
  repeat match type of Hin with
         | (String.eqb level ?k || _)%bool = true =>
             destruct (String.eqb_spec level k) as [E | _];
             [rewrite E; reflexivity | rewrite orb_false_l in Hin]
         end.
  discriminate.
Qed.

(** X9.  [getDimensions] yields a [rows, cols] pair exactly for the level
    strings that are not a member name inherited by the table; the pair is
    then one of the five of the table or the fallback [4, 4], so its product
    is even, lies between 4 and 24, and half of it fits the pool. *)
Theorem getDimensions_pair_iff_not_inherited (level : string) :
  (existsb (String.eqb level) objectPrototypeKeys = false
   <-> exists rows cols, getDimensions level = Dim rows cols)
  /\ (forall rows cols, getDimensions level = Dim rows cols ->
        In (rows, cols) [(2, 2); (4, 3); (4, 4); (4, 5); (4, 6)]
        /\ Nat.even (rows * cols) = true
        /\ 4 <= rows * cols <= 24
        /\ rows * cols / 2 <= length defaultSymbols)
  /\ (ownProperty dimensions level = None ->
      existsb (String.eqb level) objectPrototypeKeys = false ->
      getDimensions level = Dim 4 4).
Proof.
  split; [|split].
  - split.
    + intros Hown. unfold getDimensions. rewrite Hown.
      destruct (ownProperty dimensions level) as [[rows cols]|]; eauto.
    + intros (rows & cols & Hdim).
      destruct (existsb (String.eqb level) objectPrototypeKeys) eqn:E; [|reflexivity].
      rewrite (getDimensions_inherited _ E) in Hdim. discriminate.
  - intros rows cols. unfold getDimensions, dimensions, ownProperty.
    repeat match goal with
           | |- context [String.eqb ?k level] =>
               destruct (String.eqb k level);
               [intros [= <- <-]; vm_compute; intuition lia|]
           end.
    destruct (existsb (String.eqb level) objectPrototypeKeys); [discriminate|].
    intros [= <- <-]. vm_compute. intuition lia.
  - intros Hnone Hown. unfold getDimensions. rewrite Hnone, Hown. reflexivity.
Qed.

Lemma getDimensions_pair_iff_not_inherited_witness :
  getDimensions "5x5" = Dim 4 4 /\ exists rows cols, getDimensions "4x5" = Dim rows cols.
Proof.
  destruct (getDimensions_pair_iff_not_inherited "5x5") as (_ & _ & Hdefault).
  destruct (getDimensions_pair_iff_not_inherited "4x5") as ([Hpair _] & _).
  split; [exact (Hdefault eq_refl eq_refl) | exact (Hpair eq_refl)].
Defined.

(** ** The win message *)

Lemma filter_nil_all {A} (p : A -> bool) (l : list A) :
  List.filter p l = [] -> forall x, In x l -> p x = false.
Proof.
  induction l as [|y l IH]; intros Hnil x Hin; [destruct Hin|].
  simpl in Hnil. destruct (p y) eqn:E; [discriminate|].
  destruct Hin as [<- | Hin]; [exact E | apply IH; assumption].
Qed.

Lemma remainingCards_kept w w' :
  boardKept w w' -> elementsKept w w' ->
  remainingCards w = [] -> remainingCards w' = [].
Proof.
  intros [Hboard Hlen] Hkept Hnone. unfold remainingCards in *. rewrite Hboard.
  apply filter_none. intros c Hin.
  pose proof (filter_nil_all _ _ Hnone c Hin) as Hc. simpl in Hc.
  destruct (cards w !! c) as [e|] eqn:E.
  - destruct (Hkept c e E) as (e' & -> & _ & Hm).
    destruct (matched e); [|discriminate]. rewrite Hm; reflexivity.
  - apply lookup_ge_None in E. rewrite (proj2 (lookup_ge_None (cards w') c)); [reflexivity | lia].
Qed.

Lemma boardKept_same w w' :
  gameBoard w' = gameBoard w -> cards w' = cards w -> boardKept w w'.
Proof. intros Hb Hc. split; [exact Hb | rewrite Hc; reflexivity]. Qed.

Lemma boardKept_trans w1 w2 w3 : boardKept w1 w2 -> boardKept w2 w3 -> boardKept w1 w3.
Proof. intros [H1 H2] [H3 H4]. split; congruence. Qed.

Lemma boardKept_classList f card w : boardKept w (classList f card w).
Proof. destruct w; split; simpl; [reflexivity | apply length_alter]. Qed.

Section Won.
Context `{engine : ArraySort}.

Lemma boardKept_runCallback cb w : boardKept w (runCallback cb w).
Proof.
destruct cb; simpl.
- apply checkMatch_cases; [intros _ _; apply boardKept_same; reflexivity|].
  intros card1 card2 rest _.
  destruct (String.eqb (Selected.symbol card1) (Selected.symbol card2)).
  + apply boardKept_same; destruct w; reflexivity.
  + apply (boardKept_trans _ (classList addShake (Selected.element card1) w));
      [apply boardKept_classList|].
    apply (boardKept_trans _ (classList addShake (Selected.element card2)
                                (classList addShake (Selected.element card1) w)));
      [apply boardKept_classList|].
    apply boardKept_same; destruct w; reflexivity.
- unfold checkGameOver.
  destruct (Nat.eqb (length (remainingCards (set_allowClick true w))) 0);
    apply boardKept_same;
    destruct w as [? ? [h|] ? ? ? ? ? ? ? ? ? ? ? ? ? ? ?]; reflexivity.
- apply (boardKept_trans _ (classList addMatched card1 w)); [apply boardKept_classList|].
  apply (boardKept_trans _ (classList addMatched card2 (classList addMatched card1 w)));
    [apply boardKept_classList|].
  apply boardKept_same; destruct w; reflexivity.
- apply (boardKept_trans _ (classList removeFlippedShake card1 w));
    [apply boardKept_classList|].
  apply (boardKept_trans _ (classList removeFlippedShake card2
                              (classList removeFlippedShake card1 w)));
    [apply boardKept_classList|].
  apply boardKept_same; destruct w; reflexivity.
- apply boardKept_same; destruct w; reflexivity.
Qed.

Lemma boardKept_step w ev : restarting w ev = false -> boardKept w (step w ev).
Proof.
intros Hev. destruct ev as [i|level answers|answers|dt| |]; simpl in *; try discriminate.
- unfold clickCard. destruct (gameBoard w !! i) as [c|]; [|apply boardKept_same; reflexivity].
  destruct (cards w !! c) as [e|]; [|apply boardKept_same; reflexivity].
  apply handleCardClick_cases; [intros _; apply boardKept_same; reflexivity|].
  intros _. split; intros _;
    (apply (boardKept_trans _ (classList addFlipped c w)); [apply boardKept_classList|]);
    apply boardKept_same; destruct w; reflexivity.
- rewrite Hev. apply boardKept_same; reflexivity.
- apply boardKept_same; unfold wait; destruct (earliest (timers w)); destruct w; reflexivity.
- unfold fire. destruct (earliest (timers w)) as [t|]; [|apply boardKept_same; reflexivity].
  match goal with |- boardKept w (runCallback _ ?x) =>
    apply (boardKept_trans _ x);
      [apply boardKept_same; destruct w; reflexivity | apply boardKept_runCallback]
  end.
- apply boardKept_same; unfold paint;
    rewrite fold_runFrame_preserves by (intros [] w'; destruct w'; reflexivity);
    destruct w; reflexivity.
Qed.

Lemma won_step w ev :
(message w = true -> remainingCards w = []) ->
message (step w ev) = true -> remainingCards (step w ev) = [].
Proof.
intros Hwon Hafter.
destruct (restarting w ev) eqn:Hev.
- exfalso. destruct ev as [i|level answers|answers|dt| |]; simpl in *; try discriminate.
  + destruct (startGame_resets answers (set_levelSelect level w)) as (_ & _ & Hm & _).
    congruence.
  + rewrite Hev in Hafter.
    destruct (startGame_resets answers w) as (_ & _ & Hm & _). congruence.
- destruct (message w) eqn:Hm.
  + apply (remainingCards_kept w);
      [apply boardKept_step, Hev | apply elementsKept_step | apply Hwon; reflexivity].
  + destruct ev as [i|level answers|answers|dt| |]; simpl in *; try discriminate.
    * exfalso. revert Hafter. unfold clickCard.
      destruct (gameBoard w !! i) as [c|]; [|congruence].
      destruct (cards w !! c) as [e|]; [|congruence].
      rewrite message_handleCardClick. congruence.
    * exfalso. rewrite Hev in Hafter. congruence.
    * exfalso. revert Hafter. unfold wait.
      destruct (earliest (timers w)); destruct w; simpl in *; congruence.
    * revert Hafter. unfold fire.
      destruct (earliest (timers w)) as [t|] eqn:Ht; [|congruence].
      destruct (isUnlock t) eqn:Hun.
      -- unfold isUnlock in Hun. destruct (callback t) eqn:Hcb; try discriminate.
         simpl. unfold checkGameOver.
         match goal with |- context [remainingCards ?x] => set (w2 := x) end.
         destruct (Nat.eqb (length (remainingCards w2)) 0) eqn:Hnone.
         ++ intros _. apply Nat.eqb_eq, length_zero_iff_nil in Hnone.
            rewrite <- Hnone. unfold remainingCards.
            destruct w2 as [? ? [h|] ? ? ? ? ? ? ? ? ? ? ? ? ? ? ?]; reflexivity.
         ++ intros Hafter. exfalso. subst w2.
            destruct w; destruct (every t); simpl in *; congruence.
      -- intros Hafter. exfalso. revert Hafter.
         rewrite message_runCallback
           by (unfold isUnlock in Hun; destruct (callback t); congruence).
         destruct w; simpl in *. congruence.
    * exfalso. revert Hafter. unfold paint.
      rewrite fold_runFrame_preserves by (intros [] w'; destruct w'; reflexivity).
      destruct w; simpl in *. congruence.
Qed.

End Won.

(** X10.  The win message is never showing over an unmatched card: after
    every run of events, if the message is displayed then every card of the
    board carries the matched class. *)
Theorem message_only_over_matched_board `{engine : ArraySort}
    (evs : list Event) (level : string) (answers : list bool) :
  let w := run evs (DOMContentLoaded level answers) in
  message w = true ->
  remainingCards w = []
  /\ forall c e, In c (gameBoard w) -> cards w !! c = Some e -> matched e = true.
Proof.
  intros w Hshown.
  assert (Hnone : remainingCards w = []).
  { revert Hshown.
    apply (reachable_invariant (fun w => message w = true -> remainingCards w = [])).
    - intros l. discriminate.
    - intros w0 ev. apply won_step. }
  split; [exact Hnone|].
  intros c e Hin Hc.
  pose proof (filter_nil_all _ _ Hnone c Hin) as Hpred. simpl in Hpred.
  rewrite Hc in Hpred. destruct (matched e); [reflexivity | discriminate].
Qed.

Lemma message_only_over_matched_board_witness :
  let w := run (bothPairsMatched ++ [Fire; Click 0; Wait 300]) boot2x2 in
  message w = true /\ remainingCards w = [].
Proof.
  split; [reflexivity|].
  exact (proj1 (@message_only_over_matched_board insertionSort
                  (bothPairsMatched ++ [Fire; Click 0; Wait 300]) LEVELS.EASY [] eq_refl)).
Defined.

(** ** The symbols on the board *)

Lemma boardSymbols_kept w w' :
  boardKept w w' -> elementsKept w w' -> boardSymbols w' = boardSymbols w.
Proof.
  intros [Hboard Hlen] Hkept. unfold boardSymbols. rewrite Hboard. clear Hboard.
  induction (gameBoard w) as [|c board IH]; simpl; [reflexivity|].
  rewrite IH. f_equal.
  destruct (cards w !! c) as [e|] eqn:E.
  - destruct (Hkept c e E) as (e' & -> & -> & _). reflexivity.
  - apply lookup_ge_None in E. rewrite (proj2 (lookup_ge_None (cards w') c)); [reflexivity | lia].
Qed.

Lemma flat_map_fresh (old : list CardElement) (symbols : list string) :
  flat_map (fun c => match (old ++ map faceDown symbols) !! c with
                     | Some e => [front e]
                     | None => []
                     end) (seq (length old) (length symbols)) = symbols.
Proof.
  revert old; induction symbols as [|s symbols IH]; intros old; simpl; [reflexivity|].
  rewrite list_lookup_middle by reflexivity. simpl. f_equal.
  specialize (IH (old ++ [faceDown s])).
  rewrite length_app, Nat.add_1_r, <- app_assoc in IH. exact IH.
Qed.

Section Dealt.
Context `{engine : ArraySort}.

Lemma boardDealt_startGame answers w : boardDealt (settle (startGame answers w)).
Proof.
destruct (getDimensions (levelSelect w)) as [rows cols|name] eqn:Hdim.
- destruct (startGame_deals answers w rows cols Hdim) as (_ & Hcards & Hboard & _).
  assert (Hsyms : boardSymbols (settle (startGame answers w))
                  = map symbol (shuffleCards defaultSymbols (rows * cols) answers)).
  { unfold boardSymbols. rewrite Hcards, Hboard.
    rewrite <- (map_map symbol faceDown).
    rewrite <- (length_map symbol (shuffleCards defaultSymbols (rows * cols) answers)).
    apply flat_map_fresh. }
  split; [right; exists (rows * cols), answers; exact Hsyms|].
  rewrite Hsyms, Hboard, length_seq, length_map. reflexivity.
- destruct (startGame_throws answers w name Hdim) as (_ & _ & Hboard & _).
  split; [left; exact Hboard|]. unfold boardSymbols. rewrite Hboard. reflexivity.
Qed.

Lemma boardDealt_step w ev : boardDealt w -> boardDealt (step w ev).
Proof.
intros Hw. destruct (restarting w ev) eqn:Hev.
- destruct ev as [i|level answers|answers|dt| |]; simpl in *; try discriminate.
  + apply boardDealt_startGame.
  + rewrite Hev. apply boardDealt_startGame.
- pose proof (boardKept_step w ev Hev) as Hboard.
  pose proof (boardSymbols_kept _ _ Hboard (elementsKept_step w ev)) as Hsyms.
  destruct Hboard as [Hboard _]. destruct Hw as [Hdealt Hlen].
  unfold boardDealt. rewrite Hsyms, Hboard. split; assumption.
Qed.

End Dealt.

(** X11.  After every run of events, restarts included, every card of the
    board is an element that exists, and every symbol shows on no card of
    the board or on exactly two. *)
Theorem board_always_pairs `{reorders : ArraySortReorders}
    (evs : list Event) (level : string) (answers : list bool) (s : string) :
  let w := run evs (DOMContentLoaded level answers) in
  length (boardSymbols w) = length (gameBoard w)
  /\ (count_occ String.string_dec (boardSymbols w) s = 0
      \/ count_occ String.string_dec (boardSymbols w) s = 2).
Proof.
  intros w.
  assert (Hdealt : boardDealt w).
  { apply (reachable_invariant boardDealt); [|apply @boardDealt_step].
    intros l. split; [left; reflexivity | reflexivity]. }
  destruct Hdealt as [[Hempty | (totalCards & a & Hsyms)] Hlen]; (split; [exact Hlen|]).
  - left. unfold boardSymbols. rewrite Hempty. reflexivity.
  - rewrite Hsyms.
    destruct (in_dec String.string_dec s
                (map symbol (shuffleCards defaultSymbols totalCards a))) as [Hin | Hout].
    + right. rewrite <- copies_count_occ.
      apply deck_two_per_symbol; [apply NoDup_defaultSymbols | exact Hin].
    + left. apply count_occ_not_In, Hout.
Qed.

Lemma board_always_pairs_witness :
  let w := run [Click 0; Click 1; Fire; ChangeLevel LEVELS.MEDIUM [true; true; false];
                Click 3; Fire] boot2x2 in
  length (gameBoard w) = 12
  /\ count_occ String.string_dec (boardSymbols w) "5" = 2
  /\ count_occ String.string_dec (boardSymbols w) "7" = 0.
Proof.
  split; [reflexivity|]. split.
  - destruct (proj2 (@board_always_pairs insertionSort insertionSort_reorders
                       [Click 0; Click 1; Fire; ChangeLevel LEVELS.MEDIUM [true; true; false];
                        Click 3; Fire] LEVELS.EASY [] "5")) as [H | H];
      [vm_compute in H; discriminate | exact H].
  - destruct (proj2 (@board_always_pairs insertionSort insertionSort_reorders
                       [Click 0; Click 1; Fire; ChangeLevel LEVELS.MEDIUM [true; true; false];
                        Click 3; Fire] LEVELS.EASY [] "7")) as [H | H];
      [exact H | vm_compute in H; discriminate].
Defined.

(** ** An accepted flip *)

(** X12.  A flip that gets past the guard turns the clicked card face up
    and appends it, with the symbol given, to the selection; every other
    element, the board, the seconds, the cues played and [gameState] stay as
    they were, and input stays open exactly when the selection has not
    reached two cards. *)
Theorem accepted_flip_turns_one_card (cardElement : nat) (symbol : string) (w : World) :
  accepts cardElement w = true ->
  let w' := handleCardClick cardElement symbol w in
  selectedCards w'
  = selectedCards w ++ [{| Selected.element := cardElement; Selected.symbol := symbol |}]
  /\ (exists e, cards w !! cardElement = Some e
                /\ cards w' !! cardElement = Some (addFlipped e))
  /\ (forall c, c <> cardElement -> cards w' !! c = cards w !! c)
  /\ gameBoard w' = gameBoard w
  /\ seconds w' = seconds w
  /\ played w' = played w
  /\ gameState w' = gameState w
  /\ allowClick w' = negb (Nat.eqb (length (selectedCards w')) 2).
Proof.
  intros Hacc w'. subst w'. rewrite (handleCardClick_accepted _ _ _ Hacc).
  assert (Hopen : allowClick w = true /\ exists e, cards w !! cardElement = Some e).
  { unfold accepts in Hacc. destruct (cards w !! cardElement) as [e|]; [|discriminate].
    destruct (allowClick w); [eauto | discriminate]. }
  destruct Hopen as (Hopen & e & He).
  assert (Hlen : forall x, Nat.eqb (length (selectedCards w ++ [x])) 2
                           = Nat.eqb (length (selectedCards w)) 1).
  { intros x. rewrite length_app. simpl.
    destruct (Nat.eqb_spec (length (selectedCards w)) 1);
      destruct (Nat.eqb_spec (length (selectedCards w) + 1) 2); try reflexivity; lia. }
  simpl. destruct (Nat.eqb (length (selectedCards w)) 1) eqn:E;
    destruct w; simpl in *; rewrite Hlen; simpl;
    (split; [reflexivity|]);
    (split; [exists e; split; [exact He|];
             rewrite list_lookup_alter, He; case_decide; [reflexivity | congruence]|]);
    (split; [intros c Hc; apply list_lookup_alter_ne; congruence|]);
    repeat split; try reflexivity; exact Hopen.
Qed.

Lemma accepted_flip_turns_one_card_witness :
  accepts 3 boot2x2 = true
  /\ selectedCards (handleCardClick 3 "1" boot2x2)
     = [{| Selected.element := 3; Selected.symbol := "1" |}]
  /\ allowClick (handleCardClick 3 "1" boot2x2) = true.
Proof.
  destruct (accepted_flip_turns_one_card 3 "1" boot2x2 eq_refl)
    as (Hsel & _ & _ & _ & _ & _ & _ & Hallow).
  split; [reflexivity|]. split; [exact Hsel | exact Hallow].
Defined.

(** ** What [gameState] tells *)

Lemma noMatchedCall_ext (ts ts' : list Timer) :
  (forall t, In t ts' -> In t ts \/ isMatchedCall t = false) ->
  List.filter isMatchedCall ts = [] -> List.filter isMatchedCall ts' = [].
Proof.
  intros Hsub Hnone. apply filter_none. intros t Hin.
  destruct (Hsub t Hin) as [Hold | Hplain]; [|exact Hplain].
  apply (filter_nil_all _ _ Hnone t Hold).
Qed.

Lemma noMatchYet_ext w w' :
  gameState w' = gameState w ->
  (forall s, In s (played w') -> In s (played w) \/ s <> SoundMatch) ->
  frames w' = frames w ->
  (forall t, In t (timers w') -> In t (timers w) \/ isMatchedCall t = false) ->
  noMatchYet w -> noMatchYet w'.
Proof.
  intros Hstate Hplayed Hframes Htimers (Hidle & Hsilent & Hnone & Hcalls).
  split; [congruence|]. split; [|split; [congruence|]].
  - intros Hin. destruct (Hplayed _ Hin) as [Hold | Hne]; [exact (Hsilent Hold) | congruence].
  - apply (noMatchedCall_ext (timers w)); assumption.
Qed.

Ltac quiet :=
  match goal with
  | |- _ = _ =>
      repeat match goal with w : World |- _ => destruct w end; reflexivity
  | |- forall s, In s _ -> In s _ \/ s <> SoundMatch =>
      let s := fresh "s" in let H := fresh "H" in
      intros s H;
      repeat match goal with w : World |- _ => destruct w end; simpl in *;
      repeat (destruct H as [H | H]; [right; rewrite <- H; discriminate|]);
      left; exact H
  | |- forall t, In t _ -> In t _ \/ isMatchedCall t = false =>
      let t := fresh "t" in let H := fresh "H" in
      intros t H;
      repeat match goal with w : World |- _ => destruct w end; simpl in *;
      repeat (apply in_app_or in H; destruct H as [H | H]);
      repeat (destruct H as [H | H]; [right; rewrite <- H; reflexivity|]);
      first [ left; exact H
            | left; apply filter_In in H; apply H
            | destruct H ]
  end.

Section Tracking.
Context `{engine : ArraySort}.

Lemma matchSeen_step w ev : matchSeen w -> matchSeen (step w ev).
Proof.
revert w ev. apply step_preserves; unfold matchSeen.
- intros c s w Hw. apply handleCardClick_cases; [intros _; exact Hw|].
  intros _. split; intros _; destruct w; exact Hw.
- intros answers level w Hw.
  destruct (startGame_resets answers (set_levelSelect level w)) as (_ & _ & _ & _ & -> & _).
  destruct (startGame_fields answers (set_levelSelect level w)) as (_ & _ & ->).
  destruct w; exact Hw.
- intros answers w Hw.
  destruct (startGame_resets answers w) as (_ & _ & _ & _ & -> & _).
  destruct (startGame_fields answers w) as (_ & _ & ->). exact Hw.
- intros dt w Hw. unfold wait. destruct (earliest (timers w)); destruct w; exact Hw.
- apply (fire_preserves (fun w => In SoundMatch (played w)
                                   /\ (gameState w = CHECKING \/ gameState w = PLAYING))).
  + intros w n ts Hw. destruct w; exact Hw.
  + intros cb w [Hin Hstate]. destruct cb; simpl.
    * apply checkMatch_cases; [intros _ _; split; assumption|].
      intros card1 card2 rest _.
      destruct (String.eqb (Selected.symbol card1) (Selected.symbol card2));
        destruct w; simpl in *; split; tauto.
    * unfold checkGameOver.
      destruct (Nat.eqb (length (remainingCards (set_allowClick true w))) 0);
        destruct w as [? ? [h|] ? ? ? ? ? ? ? ? ? ? ? ? ? ? ?]; simpl in *; split; tauto.
    * destruct w; simpl in *; split; tauto.
    * destruct w; simpl in *; split; tauto.
    * destruct w; simpl in *; split; tauto.
- intros w Hw. unfold paint.
  rewrite !fold_runFrame_preserves by (intros [] w'; destruct w'; reflexivity).
  destruct w; exact Hw.
Qed.

Lemma noMatchYet_runCallback cb w :
isMatchedCall {| handle := 0; due := 0; callback := cb; every := None |} = false ->
noMatchYet w -> noMatchYet (runCallback cb w) \/ matchSeen (runCallback cb w).
Proof.
intros Hcb Hw. destruct cb; simpl; try discriminate.
- apply checkMatch_cases; [intros _ _; left; exact Hw|].
  intros card1 card2 rest _.
  destruct (String.eqb (Selected.symbol card1) (Selected.symbol card2)).
  + right. destruct w; simpl. split; [left; reflexivity | left; reflexivity].
  + left. revert Hw. apply noMatchYet_ext; quiet.
- left. unfold checkGameOver.
  destruct (Nat.eqb (length (remainingCards (set_allowClick true w))) 0);
    revert Hw; apply noMatchYet_ext;
    try (destruct w as [? ? [h|] ? ? ? ? ? ? ? ? ? ? ? ? ? ? ?]; quiet).
- left. revert Hw. apply noMatchYet_ext; quiet.
- left. revert Hw. apply noMatchYet_ext; quiet.
Qed.

End Tracking.

Section TrackingSteps.
Context `{engine : ArraySort}.

Lemma noMatchYet_startGame answers w :
noMatchYet w -> noMatchYet (settle (startGame answers w)).
Proof.
intros Hw.
destruct (startGame_resets answers w) as (_ & _ & _ & _ & Hplayed & _ & Hframes & _).
destruct (startGame_fields answers w) as (_ & _ & Hstate).
revert Hw. apply noMatchYet_ext; try assumption.
- intros s. rewrite Hplayed. tauto.
- destruct (getDimensions (levelSelect w)) as [rows cols|name] eqn:Hdim.
  + destruct (startGame_deals answers w rows cols Hdim) as (_ & _ & _ & _ & _ & _ & ->).
    intros t Hin. apply in_app_or in Hin. destruct Hin as [Hin | [<- | []]].
    * left. destruct (timer w); [apply filter_In in Hin; apply Hin | exact Hin].
    * right. reflexivity.
  + destruct (startGame_throws answers w name Hdim) as (_ & _ & _ & _ & _ & _ & ->). tauto.
Qed.

Lemma tracking_step w ev :
noMatchYet w \/ matchSeen w -> noMatchYet (step w ev) \/ matchSeen (step w ev).
Proof.
intros [Hw | Hw]; [|right; apply matchSeen_step, Hw].
destruct ev as [i|level answers|answers|dt| |]; simpl.
- left. unfold clickCard. destruct (gameBoard w !! i) as [c|]; [|exact Hw].
  destruct (cards w !! c) as [e|]; [|exact Hw].
  apply handleCardClick_cases; [intros _; exact Hw|].
  intros _. split; intros _; revert Hw; apply noMatchYet_ext; quiet.
- left. apply noMatchYet_startGame. revert Hw. apply noMatchYet_ext; quiet.
- left. destruct (message w); [apply noMatchYet_startGame, Hw | exact Hw].
- left. unfold wait. destruct (earliest (timers w)); revert Hw; apply noMatchYet_ext; quiet.
- unfold fire. destruct (earliest (timers w)) as [t|] eqn:Ht; [|left; exact Hw].
  apply earliest_In in Ht.
  assert (Hplain : isMatchedCall t = false).
  { destruct Hw as (_ & _ & _ & Hcalls). apply (filter_nil_all _ _ Hcalls t Ht). }
  apply noMatchYet_runCallback; [exact Hplain|].
  revert Hw. apply noMatchYet_ext; try quiet.
  intros t' Hin. destruct w; simpl in *.
  destruct (every t).
  + apply in_app_or in Hin. destruct Hin as [Hin | [<- | []]].
    * left. apply filter_In in Hin. apply Hin.
    * right. exact Hplain.
  + left. apply filter_In in Hin. apply Hin.
- left. unfold paint. destruct Hw as (Hidle & Hsilent & Hnone & Hcalls).
  rewrite Hnone. simpl. split; [|split; [|split]]; destruct w; simpl in *; assumption || reflexivity.
Qed.

End TrackingSteps.

(** X13.  [gameState] does not follow the games: after every run of events
    it is 'idle' exactly as long as no pair has been matched since the page
    was loaded, new games included, and from the first match on it is
    'checking' or 'playing'; it is never 'finished'. *)
Theorem gameState_idle_until_first_match `{engine : ArraySort}
    (evs : list Event) (level : string) (answers : list bool) :
  let w := run evs (DOMContentLoaded level answers) in
  (gameState w = IDLE <-> ~ In SoundMatch (played w))
  /\ (In SoundMatch (played w) -> gameState w = CHECKING \/ gameState w = PLAYING)
  /\ gameState w <> FINISHED.
Proof.
  intros w.
  assert (Hinv : noMatchYet w \/ matchSeen w).
  { apply (reachable_invariant (fun w => noMatchYet w \/ matchSeen w)).
    - intros l. left. repeat split. simpl. tauto.
    - intros w0 ev. apply tracking_step. }
  destruct Hinv as [(Hidle & Hsilent & _) | (Hin & Hstate)].
  - split; [tauto|]. split; [tauto | congruence].
  - split; [|split; [tauto | destruct Hstate; congruence]].
    split; [destruct Hstate; congruence | tauto].
Qed.

Lemma gameState_idle_until_first_match_witness :
  let w := run [Click 0; Click 2; Fire; ChangeLevel LEVELS.HARD []; Click 1] boot2x2 in
  In SoundMatch (played w) /\ (gameState w = CHECKING \/ gameState w = PLAYING).
Proof.
  assert (Hin : In SoundMatch
                  (played (run [Click 0; Click 2; Fire; ChangeLevel LEVELS.HARD []; Click 1]
                             boot2x2))) by (left; reflexivity).
  split; [exact Hin|].
  exact (proj1 (proj2 (@gameState_idle_until_first_match insertionSort
                         [Click 0; Click 2; Fire; ChangeLevel LEVELS.HARD []; Click 1]
                         LEVELS.EASY [])) Hin).
Defined.

(** ** The shuffle of the easy board, for any engine *)

Lemma sameSymbols_spec (a b : list string) : sameSymbols a b = true <-> a = b.
Proof. unfold sameSymbols. apply bool_decide_eq_true. Qed.

Lemma list_sum_pointwise {A} (g h : A -> nat) (l : list A) :
  list_sum (map (fun a => g a + h a) l) = list_sum (map g l) + list_sum (map h l).
Proof. induction l as [|a l IH]; simpl; [reflexivity | rewrite IH; lia]. Qed.

Lemma no_hit (y : list string) (arrangements : list (list string)) :
  ~ In y arrangements ->
  list_sum (map (fun a => if sameSymbols y a then 1 else 0) arrangements) = 0.
Proof.
  induction arrangements as [|b arrangements IH]; intros Hout; simpl; [reflexivity|].
  destruct (sameSymbols y b) eqn:E.
  - apply sameSymbols_spec in E. exfalso. apply Hout. left. congruence.
  - apply IH. intros Hin. apply Hout. right. exact Hin.
Qed.

Lemma one_hit (y : list string) (arrangements : list (list string)) :
  List.NoDup arrangements -> In y arrangements ->
  list_sum (map (fun a => if sameSymbols y a then 1 else 0) arrangements) = 1.
Proof.
  intros Hnodup. induction Hnodup as [|a arrangements Hfresh Hnodup IH]; intros Hin;
    [destruct Hin|].
  simpl. destruct (sameSymbols y a) eqn:E.
  - apply sameSymbols_spec in E. subst a. rewrite no_hit by exact Hfresh. reflexivity.
  - destruct Hin as [-> | Hin].
    + assert (sameSymbols y y = true) by (apply sameSymbols_spec; reflexivity). congruence.
    + rewrite IH by exact Hin. reflexivity.
Qed.

Lemma count_by_outcome {X} (outcome : X -> list string)
    (arrangements : list (list string)) (l : list X) :
  List.NoDup arrangements ->
  (forall x, In x l -> In (outcome x) arrangements) ->
  list_sum (map (fun a => length (List.filter (fun x => sameSymbols (outcome x) a) l))
                arrangements)
  = length l.
Proof.
  intros Hnodup. induction l as [|x l IH]; intros Hall; simpl.
  - clear. induction arrangements as [|a arrangements IHa]; simpl; [reflexivity | exact IHa].
  - transitivity
      (list_sum (map (fun a => (if sameSymbols (outcome x) a then 1 else 0)
                               + length (List.filter (fun x => sameSymbols (outcome x) a) l))
                     arrangements)).
    { f_equal. apply map_ext. intros a.
      destruct (sameSymbols (outcome x) a); reflexivity. }
    rewrite list_sum_pointwise.
    rewrite (one_hit (outcome x) arrangements Hnodup) by (apply Hall; left; reflexivity).
    rewrite IH by (intros y Hy; apply Hall; right; exact Hy). reflexivity.
Qed.

Lemma easy_deck_arrangement (l : list string) :
  Permutation l ["1"; "2"; "1"; "2"] -> In l easyArrangements.
Proof.
  intros Hperm.
  pose proof (Permutation_length Hperm) as Hlen.
  pose proof (proj1 (Permutation_count_occ String.string_dec _ _) Hperm "1") as Hcount.
  assert (Hin : forall x, In x l -> x = "1" \/ x = "2").
  { intros x Hx. apply (Permutation_in _ Hperm) in Hx. simpl in Hx.
    intuition (subst; auto). }
  destruct l as [|a [|b [|c [|d [|]]]]]; try discriminate.
  pose proof (Hin a (or_introl eq_refl)) as Ha.
  pose proof (Hin b (or_intror (or_introl eq_refl))) as Hb.
  pose proof (Hin c (or_intror (or_intror (or_introl eq_refl)))) as Hc.
  pose proof (Hin d (or_intror (or_intror (or_intror (or_introl eq_refl))))) as Hd.
  clear Hin Hperm Hlen.
  destruct Ha as [-> | ->], Hb as [-> | ->], Hc as [-> | ->], Hd as [-> | ->];
    vm_compute in Hcount; try discriminate; vm_compute; tauto.
Qed.

(** X14.  Whatever sort the engine uses and however many comparator answers
    it reads, every outcome for the easy board is one of the six orders of
    the deck 1 2 1 2, and these six are never equally frequent among the
    equally likely answer sequences: their frequencies add up to a power of
    two. *)
Theorem easy_board_never_uniform `{reorders : ArraySortReorders} (k : nat) :
  list_sum (map (frequency 4 k) easyArrangements) = 2 ^ k
  /\ ~ exists f, forall a, In a easyArrangements -> frequency 4 k a = f.
Proof.
  assert (Hsum : list_sum (map (frequency 4 k) easyArrangements) = 2 ^ k).
  { rewrite <- length_allAnswers. unfold frequency.
    apply (count_by_outcome
             (fun answers => map symbol (shuffleCards defaultSymbols 4 answers))).
    - apply NoDup_ListNoDup. apply (bool_decide_unpack _). vm_compute. exact I.
    - intros answers _. apply easy_deck_arrangement.
      apply (shuffleCards_symbols defaultSymbols 4 answers). }
  split; [exact Hsum|].
  intros [f Hf]. unfold easyArrangements in *. simpl in Hsum.
  rewrite !Hf in Hsum by (simpl; tauto).
  apply (three_not_dividing_power_of_two k (2 * f)). lia.
Qed.

Lemma easy_board_never_uniform_witness :
  list_sum (map (frequency 4 6) easyArrangements) = 64.
Proof.
  exact (proj1 (@easy_board_never_uniform insertionSort insertionSort_reorders 6)).
Defined.

(** ** How long input stays locked *)

Lemma countAlong_app `{engine : ArraySort} (p : World -> Event -> bool) evs1 evs2 w :
  countAlong p (evs1 ++ evs2) w = countAlong p evs1 w + countAlong p evs2 (run evs1 w).
Proof.
  revert w; induction evs1 as [|ev evs1 IH]; intros w; simpl; [reflexivity|].
  rewrite IH. lia.
Qed.

Lemma checksSane_ext w w' :
  selectedCards w' = selectedCards w -> pendingChecks w' <= pendingChecks w ->
  checksSane w -> checksSane w'.
Proof.
  unfold checksSane. intros -> Hle [[Hlen Hc] | Hc]; [left; split; [exact Hlen | lia] | right; lia].
Qed.

Lemma lockedSince_ext since w w' :
  now w <= now w' -> allowClick w' = allowClick w ->
  (forall t, In t (timers w') ->
     In t (timers w) \/ (isCheck t = false /\ isUnlock t = false)) ->
  lockedSince since w -> lockedSince since w'.
Proof.
  intros Hnow Hallow Htimers (Hsince & Hchecks & Hunlocks & Hopen).
  split; [lia|]. split; [|split].
  - intros t Hin Ht. destruct (Htimers t Hin) as [Hold | [Hc _]]; [|congruence].
    apply Hchecks; assumption.
  - intros t Hin Ht. destruct (Htimers t Hin) as [Hold | [_ Hu]]; [|congruence].
    apply Hunlocks; assumption.
  - rewrite Hallow. intros Ht. specialize (Hopen Ht). lia.
Qed.

Ltac plain_timers :=
  match goal with
  | |- _ = _ =>
      repeat match goal with w : World |- _ => destruct w end; reflexivity
  | |- _ <= _ =>
      repeat match goal with w : World |- _ => destruct w end; simpl in *;
      first [ lia
            | unfold pendingChecks; simpl; apply filter_filter_length
            | unfold pendingChecks; simpl; rewrite ?List.filter_app, ?length_app; simpl; lia
            | unfold pendingChecks; simpl; rewrite ?List.filter_app, ?length_app; simpl;
              match goal with
              | |- context [List.filter ?p (List.filter ?q ?l)] =>
                  pose proof (filter_filter_length q p l)
              end; lia ]
  | |- forall t, In t _ -> In t _ \/ (isCheck t = false /\ isUnlock t = false) =>
      let t := fresh "t" in let H := fresh "H" in
      intros t H;
      repeat match goal with w : World |- _ => destruct w end; simpl in *;
      repeat (apply in_app_or in H; destruct H as [H | H]);
      repeat (destruct H as [H | H]; [right; rewrite <- H; split; reflexivity|]);
      first [ left; exact H
            | left; apply filter_In in H; apply H
            | destruct H ]
  end.

Section Lock.
Context `{engine : ArraySort}.

Lemma checksSane_step n w ev :
clockSane w -> sessionPhase n w -> checksSane w -> restarting w ev = false ->
checksSane (step w ev).
Proof.
intros (HA & _ & _) Hphase Hchecks Hev.
destruct ev as [i|level answers|answers|dt| |]; simpl in *; try discriminate.
- unfold clickCard. destruct (gameBoard w !! i) as [c|]; [|exact Hchecks].
  destruct (cards w !! c) as [e|] eqn:Hc; [|exact Hchecks].
  apply handleCardClick_cases; [intros _; exact Hchecks|].
  intros Hacc.
  assert (Hopen : allowClick w = true).
  { unfold accepts in Hacc. rewrite Hc in Hacc. destruct (allowClick w); [reflexivity | discriminate]. }
  assert (Hnone : pendingChecks w = 0).
  { destruct Hphase as [(_ & Hlen & _) | [(Hlock & _) | (Hlock & _)]]; try congruence.
    destruct Hchecks as [[Htwo _] | Hzero]; [lia | exact Hzero]. }
  split; intros E.
  + right. unfold pendingChecks in *. destruct w; exact Hnone.
  + left. apply Nat.eqb_eq in E. unfold pendingChecks in *. destruct w; simpl in *.
    rewrite length_app, List.filter_app, length_app. simpl. split; lia.
- rewrite Hev. exact Hchecks.
- unfold wait. destruct (earliest (timers w));
    revert Hchecks; apply checksSane_ext; plain_timers.
- unfold fire. destruct (earliest (timers w)) as [t|] eqn:Ht; [|exact Hchecks].
  apply earliest_In in Ht.
  destruct (isTick t) eqn:Htick.
  + apply isTick_spec in Htick.
    destruct (HA t Ht (or_introl Htick)) as (_ & Hevery & _).
    rewrite Htick, Hevery. simpl.
    revert Hchecks. apply checksSane_ext; plain_timers.
  + assert (Hevery : every t = None).
    { destruct (every t) eqn:E; [|reflexivity].
      destruct (HA t Ht) as (Hcb & _); [right; congruence|].
      apply isTick_spec in Hcb. congruence. }
    rewrite Hevery.
    match goal with |- checksSane (runCallback _ ?x) => set (w1 := x) end.
    assert (Hw1 : checksSane w1)
      by (subst w1; revert Hchecks; apply checksSane_ext; plain_timers).
    destruct (callback t) eqn:Hcb; simpl.
    * assert (Hzero : pendingChecks w1 = 0).
      { pose proof (filter_filter_drops isCheck
                      (fun t' => negb (Nat.eqb (handle t') (handle t))) (timers w) t Ht) as Hdrop.
        unfold isCheck at 1 in Hdrop. rewrite Hcb in Hdrop. specialize (Hdrop eq_refl).
        assert (Hq : negb (Nat.eqb (handle t) (handle t)) = false)
          by (rewrite Nat.eqb_refl; reflexivity).
        specialize (Hdrop Hq).
        assert (pendingChecks w <= 1) by (destruct Hchecks as [[_ H] | H]; lia).
        subst w1. unfold pendingChecks in *. destruct w; simpl in *. lia. }
      apply checkMatch_cases; [intros _ _; right; exact Hzero|].
      intros card1 card2 rest _. right.
      destruct (String.eqb (Selected.symbol card1) (Selected.symbol card2));
        unfold pendingChecks in *; destruct w1; simpl in *;
        rewrite ?List.filter_app, ?length_app; simpl; lia.
    * revert Hw1. apply checksSane_ext.
      -- destruct (checkGameOver_fields (set_allowClick true w1)) as (-> & _).
         destruct w1; reflexivity.
      -- unfold checkGameOver, pendingChecks.
         destruct (Nat.eqb (length (remainingCards (set_allowClick true w1))) 0);
           destruct w1 as [? ? [h|] ? ? ? ? ? ? ? ? ? ? ? ? ? ? ?]; simpl;
           try apply filter_filter_length; lia.
    * revert Hw1. apply checksSane_ext; plain_timers.
    * revert Hw1. apply checksSane_ext; plain_timers.
    * revert Hw1. apply checksSane_ext; plain_timers.
- unfold paint. apply fold_runFrame_invariant.
  + intros [card1 card2] w' Hw'. revert Hw'. apply checksSane_ext; plain_timers.
  + revert Hchecks. apply checksSane_ext; plain_timers.
Qed.

End Lock.

Section LockSteps.
Context `{engine : ArraySort}.

Lemma lockedSince_runCallback since cb w :
(cb = CallCheckMatch -> since + ANIMATION_DURATION <= now w) ->
(cb = CallUnlock -> since + ANIMATION_DURATION + CHECK_MATCH_DELAY <= now w) ->
lockedSince since w -> lockedSince since (runCallback cb w).
Proof.
intros Hcheck Hunlock Hw. destruct cb; simpl.
- specialize (Hcheck eq_refl).
  apply checkMatch_cases; [intros _ _; exact Hw|].
  intros card1 card2 rest _.
  destruct Hw as (Hsince & Hchecks & Hunlocks & Hopen).
  match goal with |- lockedSince since ?x => set (w' := x) end.
  assert (Hfields : now w' = now w /\ allowClick w' = allowClick w
                    /\ forall t, In t (timers w') ->
                         In t (timers w)
                         \/ (isCheck t = false /\ isUnlock t = false)
                         \/ (isCheck t = false /\ due t = now w + CHECK_MATCH_DELAY)).
  { subst w'. destruct (String.eqb (Selected.symbol card1) (Selected.symbol card2));
      destruct w; simpl; (split; [reflexivity|]); (split; [reflexivity|]);
      intros t Hin;
      repeat (apply in_app_or in Hin; destruct Hin as [Hin | Hin]);
      try (left; exact Hin);
      destruct Hin as [<- | []]; simpl; auto. }
  destruct Hfields as (Hnow & Hallow & Htimers).
  split; [lia|]. split; [|split].
  + intros t Hin Ht. destruct (Htimers t Hin) as [Hold | [[Hc _] | [Hc _]]]; try congruence.
    apply Hchecks; assumption.
  + intros t Hin Ht. destruct (Htimers t Hin) as [Hold | [[_ Hu] | [_ Hdue]]]; try congruence.
    * apply Hunlocks; assumption.
    * rewrite Hdue. lia.
  + rewrite Hallow, Hnow. exact Hopen.
- specialize (Hunlock eq_refl).
  destruct Hw as (Hsince & Hchecks & Hunlocks & Hopen).
  match goal with |- lockedSince since ?x => set (w' := x) end.
  assert (Hfields : now w' = now w
                    /\ forall t, In t (timers w') -> In t (timers w)).
  { subst w'. unfold checkGameOver.
    destruct (Nat.eqb (length (remainingCards (set_allowClick true w))) 0);
      destruct w as [? ? [h|] ? ? ? ? ? ? ? ? ? ? ? ? ? ? ?]; simpl;
      (split; [reflexivity|]); intros t Hin; try exact Hin;
      apply filter_In in Hin; apply Hin. }
  destruct Hfields as (Hnow & Htimers).
  split; [lia|]. split; [|split].
  + intros t Hin. apply Hchecks, Htimers, Hin.
  + intros t Hin. apply Hunlocks, Htimers, Hin.
  + intros _. lia.
- revert Hw. apply lockedSince_ext; plain_timers.
- revert Hw. apply lockedSince_ext; plain_timers.
- revert Hw. apply lockedSince_ext; plain_timers.
Qed.

Lemma lockedSince_step since w ev :
lockedSince since w -> restarting w ev = false -> lockedSince since (step w ev).
Proof.
intros Hw Hev.
destruct ev as [i|level answers|answers|dt| |]; simpl in *; try discriminate.
- unfold clickCard. destruct (gameBoard w !! i) as [c|]; [|exact Hw].
  destruct (cards w !! c) as [e|]; [|exact Hw].
  apply handleCardClick_cases; [intros _; exact Hw|].
  intros _. split; intros _.
  + revert Hw. apply lockedSince_ext; plain_timers.
  + destruct Hw as (Hsince & Hchecks & Hunlocks & Hopen).
    unfold lockedSince. destruct w; simpl in *.
    split; [lia|]. split; [|split; [|discriminate]].
    * intros t Hin Ht. apply in_app_or in Hin. destruct Hin as [Hin | [<- | []]].
      -- apply Hchecks; assumption.
      -- simpl. lia.
    * intros t Hin Ht. apply in_app_or in Hin. destruct Hin as [Hin | [<- | []]].
      -- apply Hunlocks; assumption.
      -- discriminate.
- rewrite Hev. exact Hw.
- unfold wait. destruct (earliest (timers w));
    revert Hw; apply lockedSince_ext; plain_timers.
- unfold fire. destruct (earliest (timers w)) as [t|] eqn:Ht; [|exact Hw].
  apply earliest_In in Ht.
  destruct Hw as (Hsince & Hchecks & Hunlocks & Hopen).
  apply lockedSince_runCallback.
  + intros Hcb. pose proof (Hchecks t Ht) as Hdue. unfold isCheck in Hdue.
    rewrite Hcb in Hdue. specialize (Hdue eq_refl). destruct w; simpl in *. lia.
  + intros Hcb. pose proof (Hunlocks t Ht) as Hdue. unfold isUnlock in Hdue.
    rewrite Hcb in Hdue. specialize (Hdue eq_refl). destruct w; simpl in *. lia.
  + split; [destruct w; simpl in *; lia|]. split; [|split].
    * intros t' Hin Ht'.
      assert (Hcase : (In t' (timers w)) \/ (due t <= due t' /\ isCheck t = true)).
      { destruct w; simpl in *. destruct (every t).
        - apply in_app_or in Hin. destruct Hin as [Hin | [<- | []]].
          + left. apply filter_In in Hin. apply Hin.
          + right. simpl. split; [lia | exact Ht'].
        - left. apply filter_In in Hin. apply Hin. }
      destruct Hcase as [Hold | [Hle Hc]]; [apply Hchecks; assumption|].
      pose proof (Hchecks t Ht Hc). lia.
    * intros t' Hin Ht'.
      assert (Hcase : (In t' (timers w)) \/ (due t <= due t' /\ isUnlock t = true)).
      { destruct w; simpl in *. destruct (every t).
        - apply in_app_or in Hin. destruct Hin as [Hin | [<- | []]].
          + left. apply filter_In in Hin. apply Hin.
          + right. simpl. split; [lia | exact Ht'].
        - left. apply filter_In in Hin. apply Hin. }
      destruct Hcase as [Hold | [Hle Hc]]; [apply Hunlocks; assumption|].
      pose proof (Hunlocks t Ht Hc). lia.
    * intros Hallow. destruct w; simpl in *. specialize (Hopen Hallow). lia.
- unfold paint. apply fold_runFrame_invariant.
  + intros [card1 card2] w' Hw'. revert Hw'. apply lockedSince_ext; plain_timers.
  + revert Hw. apply lockedSince_ext; plain_timers.
Qed.

Lemma lockedSince_run since evs w :
lockedSince since w -> countAlong restarting evs w = 0 -> lockedSince since (run evs w).
Proof.
revert w; induction evs as [|ev evs IH]; intros w Hw Hcount; simpl in *; [exact Hw|].
destruct (restarting w ev) eqn:Hev; [discriminate|].
apply IH; [apply lockedSince_step; assumption | exact Hcount].
Qed.

Lemma checksSane_run evs : forall n w,
clockSane w -> sessionPhase n w -> checksSane w -> countAlong restarting evs w = 0 ->
checksSane (run evs w).
Proof.
induction evs as [|ev evs IH]; intros n w Hsane Hphase Hchecks Hcount; simpl in *;
  [exact Hchecks|].
destruct (restarting w ev) eqn:Hev; [discriminate|].
apply (IH (n + (if acceptedFlip w ev then 1 else 0))).
- apply clockSane_step, Hsane.
- apply sessionPhase_step; assumption.
- apply (checksSane_step n); assumption.
- exact Hcount.
Qed.

End LockSteps.

Lemma checksSane_boot `{engine : ArraySort} level answers :
  checksSane (DOMContentLoaded level answers).
Proof.
  right. unfold pendingChecks, DOMContentLoaded.
  destruct (getDimensions (levelSelect (constructor level))) as [rows cols|name] eqn:Hdim.
  - destruct (startGame_deals answers _ rows cols Hdim) as (_ & _ & _ & _ & _ & _ & ->).
    reflexivity.
  - destruct (startGame_throws answers _ name Hdim) as (_ & _ & _ & _ & _ & _ & ->).
    reflexivity.
Qed.

(** X15.  From the loading of the page until a new game is started: when an
    accepted flip completes a pair at some moment, input is open again only
    when at least [ANIMATION_DURATION + CHECK_MATCH_DELAY] = 2200 ms have
    passed since that moment, whatever is clicked in between. *)
Theorem lock_lasts_2200_ms `{engine : ArraySort}
    (evs1 evs2 : list Event) (i : nat) (level : string) (answers : list bool) :
  countAlong restarting (evs1 ++ Click i :: evs2) (DOMContentLoaded level answers) = 0 ->
  let w1 := run evs1 (DOMContentLoaded level answers) in
  acceptedFlip w1 (Click i) = true ->
  length (selectedCards (step w1 (Click i))) = 2 ->
  allowClick (run evs2 (step w1 (Click i))) = true ->
  now w1 + 2200 <= now (run evs2 (step w1 (Click i))).
Proof.
  intros Hsame w1 Hflip Htwo Hopen.
  rewrite countAlong_app in Hsame. simpl in Hsame. fold w1 in Hsame.
  assert (Hsame1 : countAlong restarting evs1 (DOMContentLoaded level answers) = 0) by lia.
  assert (Hsame2 : countAlong restarting evs2 (step w1 (Click i)) = 0) by (simpl; lia).
  pose proof (sessionPhase_run evs1 0 _ (clockSane_boot level answers)
                (sessionPhase_boot level answers) Hsame1) as Hphase.
  pose proof (checksSane_run evs1 0 _ (clockSane_boot level answers)
                (sessionPhase_boot level answers) (checksSane_boot level answers) Hsame1)
    as Hchecks.
  fold w1 in Hphase, Hchecks.
  assert (Hlocked : lockedSince (now w1) (step w1 (Click i))).
  { simpl in *. unfold clickCard in *.
    destruct (gameBoard w1 !! i) as [c|]; [|discriminate].
    assert (Hacc := Hflip). unfold accepts in Hflip.
    destruct (cards w1 !! c) as [e|]; [|discriminate].
    assert (Hallow : allowClick w1 = true)
      by (destruct (allowClick w1); [reflexivity | discriminate]).
    destruct Hphase as [(_ & Hlen & Hu & _) | [(Hlock & _) | (Hlock & _)]]; try congruence.
    assert (Hc : pendingChecks w1 = 0)
      by (destruct Hchecks as [[Hsel _] | Hzero]; [lia | exact Hzero]).
    rewrite (handleCardClick_accepted _ _ _ Hacc) in *. simpl in *.
    destruct (Nat.eqb (length (selectedCards w1)) 1) eqn:E.
    - unfold pendingChecks, pendingUnlocks in *.
      apply length_zero_iff_nil in Hc, Hu.
      pose proof (filter_nil_all _ _ Hc) as Hnochecks.
      pose proof (filter_nil_all _ _ Hu) as Hnounlocks.
      unfold lockedSince. destruct w1; simpl in *.
      split; [lia|]. split; [|split; [|discriminate]].
      + intros t Hin Ht. apply in_app_or in Hin. destruct Hin as [Hin | [<- | []]].
        * rewrite (Hnochecks t Hin) in Ht. discriminate.
        * simpl. lia.
      + intros t Hin Ht. apply in_app_or in Hin. destruct Hin as [Hin | [<- | []]].
        * rewrite (Hnounlocks t Hin) in Ht. discriminate.
        * discriminate.
    - apply Nat.eqb_neq in E. destruct w1; simpl in *.
      rewrite length_app in Htwo. simpl in Htwo. lia. }
  destruct (lockedSince_run _ _ _ Hlocked Hsame2) as (_ & _ & _ & Hpast).
  specialize (Hpast Hopen). unfold ANIMATION_DURATION, CHECK_MATCH_DELAY in Hpast. lia.
Qed.

Lemma lock_lasts_2200_ms_witness :
  let w1 := run [Click 0] boot2x2 in
  now w1 + 2200 <= now (run [Click 2; Fire; Paint; Fire; Fire; Fire; Fire] (step w1 (Click 1))).
Proof.
  exact (@lock_lasts_2200_ms insertionSort [Click 0]
           [Click 2; Fire; Paint; Fire; Fire; Fire; Fire] 1 LEVELS.EASY []
           eq_refl eq_refl eq_refl eq_refl).
Defined.

(** ** What a resolution compares *)

Lemma accepted_flip_shape cardElement symbol w :
  accepts cardElement w = true ->
  selectedCards (handleCardClick cardElement symbol w)
  = selectedCards w ++ [{| Selected.element := cardElement; Selected.symbol := symbol |}]
  /\ cards (handleCardClick cardElement symbol w) = alter addFlipped cardElement (cards w).
Proof.
  intros Hacc. rewrite (handleCardClick_accepted _ _ _ Hacc). simpl.
  destruct (Nat.eqb (length (selectedCards w)) 1); destruct w; split; reflexivity.
Qed.

Section Shows.
Context `{engine : ArraySort}.

Lemma selectionShows_kept w w' :
(forall sel, In sel (selectedCards w') -> In sel (selectedCards w)) ->
elementsKept w w' -> selectionShows w -> selectionShows w'.
Proof.
intros Hsub Hkept Hw sel Hin.
destruct (Hw sel (Hsub sel Hin)) as (e & He & Hfront).
destruct (Hkept _ e He) as (e' & He' & Hfront' & _).
exists e'. split; [exact He' | congruence].
Qed.

Lemma selection_not_grown cb w sel :
In sel (selectedCards (runCallback cb w)) -> In sel (selectedCards w).
Proof.
destruct cb; simpl.
- apply checkMatch_cases; [tauto|].
  intros card1 card2 rest _.
  destruct (String.eqb (Selected.symbol card1) (Selected.symbol card2));
    destruct w; simpl; tauto.
- destruct (checkGameOver_fields (set_allowClick true w)) as (-> & _). destruct w; tauto.
- destruct w; tauto.
- destruct w; tauto.
- destruct w; tauto.
Qed.

Lemma selectionShows_step w ev : selectionShows w -> selectionShows (step w ev).
Proof.
intros Hw. destruct ev as [i|level answers|answers|dt| |].
- simpl. unfold clickCard. destruct (gameBoard w !! i) as [c|]; [|exact Hw].
  destruct (cards w !! c) as [e|] eqn:Hc; [|exact Hw].
  destruct (accepts c w) eqn:Hacc;
    [|rewrite (handleCardClick_rejected _ _ _ Hacc); exact Hw].
  destruct (accepted_flip_shape c (front e) w Hacc) as (Hsel & Hcards).
  intros sel Hin. rewrite Hsel in Hin. rewrite Hcards.
  apply in_app_or in Hin. destruct Hin as [Hin | [<- | []]].
  + destruct (Hw sel Hin) as (e0 & He0 & Hfront).
    rewrite list_lookup_alter. case_decide.
    * subst. rewrite He0. simpl. exists (addFlipped e0). split; [reflexivity | exact Hfront].
    * exists e0. split; assumption.
  + simpl. rewrite list_lookup_alter, Hc. case_decide; [|congruence].
    exists (addFlipped e). split; reflexivity.
- apply (selectionShows_kept w); [|apply elementsKept_step | exact Hw].
  simpl. destruct (startGame_fields answers (set_levelSelect level w)) as (-> & _).
  intros sel [].
- apply (selectionShows_kept w); [|apply elementsKept_step | exact Hw].
  simpl. destruct (message w); [|tauto].
  destruct (startGame_fields answers w) as (-> & _). intros sel [].
- apply (selectionShows_kept w); [|apply elementsKept_step | exact Hw].
  simpl. rewrite (proj1 (wait_fields dt w)). tauto.
- apply (selectionShows_kept w); [|apply elementsKept_step | exact Hw].
  simpl. unfold fire. destruct (earliest (timers w)) as [t|]; [|tauto].
  intros sel Hin. apply selection_not_grown in Hin. destruct w; exact Hin.
- apply (selectionShows_kept w); [|apply elementsKept_step | exact Hw].
  simpl. rewrite (proj1 (paint_fields w)). tauto.
Qed.

End Shows.

(** X16.  After every run of events, a resolution that takes place compares
    what the two cards at the head of the selection really show: both are
    elements that exist, the 'match' cue is played exactly when their faces
    carry the same symbol and the 'fail' cue exactly when they differ. *)
Theorem resolution_compares_shown_symbols `{engine : ArraySort}
    (evs : list Event) (level : string) (answers : list bool) (w' : World) :
  let w := run evs (DOMContentLoaded level answers) in
  checkMatch w = Normal w' ->
  exists sel1 sel2 rest e1 e2,
    selectedCards w = sel1 :: sel2 :: rest
    /\ cards w !! Selected.element sel1 = Some e1
    /\ cards w !! Selected.element sel2 = Some e2
    /\ (played w' = SoundMatch :: played w <-> front e1 = front e2)
    /\ (played w' = SoundFail :: played w <-> front e1 <> front e2).
Proof.
  intros w Hres.
  assert (Hshows : selectionShows w).
  { apply (reachable_invariant selectionShows); [|apply @selectionShows_step].
    intros l sel []. }
  unfold checkMatch in Hres.
  destruct (selectedCards w) as [|sel1 [|sel2 rest]] eqn:Hsel; try discriminate.
  destruct (Hshows sel1) as (e1 & He1 & Hf1); [rewrite Hsel; left; reflexivity|].
  destruct (Hshows sel2) as (e2 & He2 & Hf2); [rewrite Hsel; right; left; reflexivity|].
  exists sel1, sel2, rest, e1, e2.
  split; [reflexivity|]. split; [exact He1|]. split; [exact He2|].
  rewrite Hf1, Hf2. injection Hres as <-.
  destruct (String.eqb_spec (Selected.symbol sel1) (Selected.symbol sel2)) as [E | E];
    destruct w; simpl; split; split; intros H; try reflexivity; try congruence.
Qed.

Lemma resolution_compares_shown_symbols_witness :
  let w := run [Click 0; Click 2; Wait 600] boot2x2 in
  exists w' sel1 sel2 rest e1 e2,
    checkMatch w = Normal w'
    /\ selectedCards w = sel1 :: sel2 :: rest
    /\ cards w !! Selected.element sel1 = Some e1
    /\ cards w !! Selected.element sel2 = Some e2
    /\ (played w' = SoundMatch :: played w <-> front e1 = front e2).
Proof.
  destruct (@resolution_compares_shown_symbols insertionSort
              [Click 0; Click 2; Wait 600] LEVELS.EASY []
              (settle (checkMatch (run [Click 0; Click 2; Wait 600] boot2x2))) eq_refl)
    as (sel1 & sel2 & rest & e1 & e2 & Hsel & He1 & He2 & Hmatch & _).
  exists (settle (checkMatch (run [Click 0; Click 2; Wait 600] boot2x2))),
    sel1, sel2, rest, e1, e2.
  split; [reflexivity|]. repeat split; try assumption; apply Hmatch.
Defined.

Lemma clock_runs_once_witness :
  let w := run [Click 0; ChangeLevel LEVELS.MASTER [false; true]; Fire; PlayAgain [];
                ChangeLevel LEVELS.EASY []; Fire; Fire] boot2x2 in
  length (List.filter isTick (timers w)) <= 1 /\ seconds w * 1000 <= now w.
Proof.
  destruct (@clock_runs_once insertionSort
              [Click 0; ChangeLevel LEVELS.MASTER [false; true]; Fire; PlayAgain [];
               ChangeLevel LEVELS.EASY []; Fire; Fire] LEVELS.EASY [])
    as (Hone & _ & Hpace).
  split; [exact Hone | exact Hpace].
Defined.
